(** * FaaSr function status tracker: a shallow embedding and its properties

    The development follows [framework/faasr_function.py],
    [framework/s3_client.py], [framework/utils/utils.py] and
    [framework/utils/enums.py].

    Python [str] values are modelled as lists of Unicode code points
    ([list char], a code point being a number); the class [\d] of a [str]
    pattern of Python's [re] module, compiled without [re.ASCII], is the set
    of Unicode decimal digits. *)

From Stdlib Require Import Ascii String List Bool NArith Lia.
From stdpp Require Import gmap strings list.

Set Default Proof Using "Type".
Local Open Scope list_scope.

(** ** Text *)

(** A character of a Python [str]: its code point, [ord(c)]. *)
Definition char : Type := N.

Bind Scope char_scope with char.

#[global] Instance char_eq_dec : EqDecision char := N.eq_dec.
#[global] Instance char_countable : Countable char := N_countable.

(** The code point of a character of the first 256. *)
Definition ord (a : ascii) : char := N_of_ascii a.

Coercion ord : ascii >-> char.

Arguments ord : simpl never.

Definition char_eqb (c d : char) : bool := N.eqb c d.

Abbreviation str := (list char).

(** The [str] written as a literal of characters of the first 256. *)
Fixpoint codes (s : string) : str :=
  match s with
  | EmptyString => []
  | String a s' => ord a :: codes s'
  end.

Coercion codes : string >-> list.

(** [s.replace(old, new)] for a one-character [old]. *)
Fixpoint replace (old : char) (new : str) (s : str) : str :=
  match s with
  | [] => []
  | c :: rest =>
      if char_eqb c old then new ++ replace old new rest
      else c :: replace old new rest
  end.

(** The text made of the given lines, each ended by a newline. *)
Definition lines (ls : list string) : str :=
  concat (map (λ l : string, codes l ++ [10%N]) ls).

(** ** A backtracking matcher for the fragment of Python's [re] used by the
    tracker

    Patterns are sequences of items: a one-character atom, the anchor [^],
    a repeated atom ([a+] greedy, [a+?] lazy) and a fixed-width look-behind
    [(?<=...)] over atoms. *)
Module Re.

Inductive atom : Type :=
| Chr (c : char)            (* an ordinary or escaped character *)
| Dot                       (* [.]: any character but a newline *)
| Cls (p : char -> bool).   (* a character class [[...]] *)

Inductive item : Type :=
| One (a : atom)
| Bol                              (* [^], no MULTILINE flag *)
| Plus (greedy : bool) (a : atom)  (* [a+] when greedy, [a+?] otherwise *)
| LookBehind (w : list atom).      (* [(?<=w)] *)

Abbreviation regex := (list item).

Definition newline : char := 10%N.

Definition in_range (lo hi c : char) : bool :=
  (lo <=? c)%N && (c <=? hi)%N.

Definition atom_ok (a : atom) (c : char) : bool :=
  match a with
  | Chr c' => char_eqb c c'
  | Dot => negb (char_eqb c newline)
  | Cls p => p c
  end.

(** The literal atoms of a string without special characters. *)
Definition lits (s : str) : list atom := map Chr s.

Definition ones (w : list atom) : regex := map One w.

(** A cursor into the subject is the reversed text before the position and
    the text after it. *)
Section Exec.
Context {A : Type}.

Fixpoint ends_with (w_rev : list atom) (before : str) : bool :=
  match w_rev, before with
  | [], _ => true
  | a :: w', c :: b' => atom_ok a c && ends_with w' b'
  | _ :: _, [] => false
  end.

Fixpoint plus_loop (greedy : bool) (a : atom) (before after : str)
    (k : str -> str -> option A) : option A :=
  match after with
  | [] => None
  | c :: rest =>
      if atom_ok a c then
        if greedy then
          match plus_loop greedy a (c :: before) rest k with
          | Some r => Some r
          | None => k (c :: before) rest
          end
        else
          match k (c :: before) rest with
          | Some r => Some r
          | None => plus_loop greedy a (c :: before) rest k
          end
      else None
  end.

Definition exec_item (i : item) (before after : str)
    (k : str -> str -> option A) : option A :=
  match i with
  | One a =>
      match after with
      | c :: rest => if atom_ok a c then k (c :: before) rest else None
      | [] => None
      end
  | Bol => match before with [] => k before after | _ :: _ => None end
  | Plus greedy a => plus_loop greedy a before after k
  | LookBehind w =>
      if ends_with (rev w) before then k before after else None
  end.

Fixpoint exec (r : regex) (before after : str)
    (k : str -> str -> option A) : option A :=
  match r with
  | [] => k before after
  | i :: r' => exec_item i before after (fun b a => exec r' b a k)
  end.
End Exec.

(** The match of [r] starting at the cursor, if any: the text after the
    match. *)
Definition match_at (r : regex) (before after : str) : option str :=
  exec r before after (fun _ a => Some a).

(** The text consumed between a position and a later one. *)
Definition consumed (after after' : str) : str :=
  take (length after - length after') after.

(** [pattern.search(s)]: the leftmost match. *)
Fixpoint search_from (r : regex) (before after : str) : option str :=
  match match_at r before after with
  | Some after' => Some (consumed after after')
  | None =>
      match after with
      | [] => None
      | c :: rest => search_from r (c :: before) rest
      end
  end.

Definition search (r : regex) (s : str) : option str := search_from r [] s.

(** [pattern.findall(s)] for a pattern without groups: the non-overlapping
    matches from left to right. [skip] counts the characters still covered
    by the previous match. *)
Fixpoint findall_from (r : regex) (before after : str) (skip : nat)
    : list str :=
  match skip with
  | S n =>
      match after with
      | [] => []
      | c :: rest => findall_from r (c :: before) rest n
      end
  | O =>
      match match_at r before after with
      | Some after' =>
          let m := consumed after after' in
          m :: match after with
               | [] => []
               | c :: rest => findall_from r (c :: before) rest (length m - 1)
               end
      | None =>
          match after with
          | [] => []
          | c :: rest => findall_from r (c :: before) rest 0
          end
      end
  end.

Definition findall (r : regex) (s : str) : list str := findall_from r [] s 0.

(** [pattern.sub('', s)]: the subject with every non-overlapping match
    removed. *)
Fixpoint sub_empty_from (r : regex) (before after : str) (skip : nat) : str :=
  match skip with
  | S n =>
      match after with
      | [] => []
      | c :: rest => sub_empty_from r (c :: before) rest n
      end
  | O =>
      match match_at r before after with
      | Some after' =>
          match after with
          | [] => []
          | c :: rest =>
              match length (consumed after after') with
              | O => c :: sub_empty_from r (c :: before) rest 0
              | S n => sub_empty_from r (c :: before) rest n
              end
          end
      | None =>
          match after with
          | [] => []
          | c :: rest => c :: sub_empty_from r (c :: before) rest 0
          end
      end
  end.

Definition sub_empty (r : regex) (s : str) : str := sub_empty_from r [] s 0.

End Re.

Import Re.

(** The class [\d] of a [str] pattern compiled without [re.ASCII]: the
    Unicode decimal digits, that is the code points of general category Nd.
    They come in runs of consecutive code points; each run is given by its
    first and its last code point, as the Unicode Character Database 14.0
    (that of CPython 3.11) lists them; a later version of the database adds
    runs and removes none. The first run is [0-9], the second the
    Arabic-Indic digits. *)
Definition decimal_runs : list (N * N) :=
  [(48, 57); (1632, 1641); (1776, 1785); (1984, 1993); (2406, 2415);
   (2534, 2543); (2662, 2671); (2790, 2799); (2918, 2927); (3046, 3055);
   (3174, 3183); (3302, 3311); (3430, 3439); (3558, 3567); (3664, 3673);
   (3792, 3801); (3872, 3881); (4160, 4169); (4240, 4249); (6112, 6121);
   (6160, 6169); (6470, 6479); (6608, 6617); (6784, 6793); (6800, 6809);
   (6992, 7001); (7088, 7097); (7232, 7241); (7248, 7257); (42528, 42537);
   (43216, 43225); (43264, 43273); (43472, 43481); (43504, 43513);
   (43600, 43609); (44016, 44025); (65296, 65305); (66720, 66729);
   (68912, 68921); (69734, 69743); (69872, 69881); (69942, 69951);
   (70096, 70105); (70384, 70393); (70736, 70745); (70864, 70873);
   (71248, 71257); (71360, 71369); (71472, 71481); (71904, 71913);
   (72016, 72025); (72784, 72793); (73040, 73049); (73120, 73129);
   (92768, 92777); (92864, 92873); (93008, 93017); (120782, 120831);
   (123200, 123209); (123632, 123641); (125264, 125273); (130032, 130041)]%N.

Definition decimal (c : char) : bool :=
  existsb (λ run, in_range (fst run) (snd run) c) decimal_runs.

(** [failed_regex = re.compile(r"\[[\d\.]+?\] \[ERROR\]")] *)
Definition digit_or_dot (c : char) : bool :=
  decimal c || char_eqb c ".".

Definition failed_regex : regex :=
  [One (Chr "["); Plus false (Cls digit_or_dot)] ++ ones (lits "] [ERROR]").

(** [invoked_regex = re.compile(
      r"(?<=\[scheduler.py\] GitHub Action: Successfully invoked: )[a-zA-Z][a-zA-Z0-9\-]+")] *)
Definition letter (c : char) : bool :=
  in_range "a" "z" c || in_range "A" "Z" c.

Definition name_char (c : char) : bool :=
  in_range "a" "z" c || in_range "A" "Z" c || in_range "0" "9" c
  || char_eqb c "-".

Definition invoked_marker : list atom :=
  lits "[scheduler" ++ [Dot]
  ++ lits "py] GitHub Action: Successfully invoked: ".

Definition invoked_regex : regex :=
  [LookBehind invoked_marker; One (Cls letter); Plus true (Cls name_char)].

(** *** What the matcher accepts *)

Definition item_matches (i : item) (before s : str) : Prop :=
  match i with
  | One a => ∃ c, s = [c] ∧ atom_ok a c = true
  | Bol => s = [] ∧ before = []
  | Plus _ a => s ≠ [] ∧ forallb (atom_ok a) s = true
  | LookBehind w => s = [] ∧ ends_with (rev w) before = true
  end.

Fixpoint matches (r : regex) (before s : str) : Prop :=
  match r with
  | [] => s = []
  | i :: r' =>
      ∃ s1 s2, s = s1 ++ s2 ∧ item_matches i before s1
               ∧ matches r' (rev s1 ++ before) s2
  end.

(** *** Runs of characters *)

(** The longest prefix of characters satisfying [p], and what follows it. *)
Fixpoint take_while (p : char → bool) (s : str) : str :=
  match s with
  | c :: rest => if p c then c :: take_while p rest else []
  | [] => []
  end.

Fixpoint drop_while (p : char → bool) (s : str) : str :=
  match s with
  | c :: rest => if p c then drop_while p rest else s
  | [] => []
  end.

(** What may follow a match: the end of the text or a character outside
    [p]. *)
Definition stops (p : char → bool) (s : str) : Prop :=
  match s with
  | [] => True
  | c :: _ => p c = false
  end.

(** ** [framework/utils/enums.py] *)

Inductive FunctionStatus : Type :=
| PENDING | INVOKED | NOT_INVOKED | RUNNING
| COMPLETED | FAILED | SKIPPED | TIMEOUT.

#[global] Instance FunctionStatus_eq_dec : EqDecision FunctionStatus.
Proof. solve_decision. Defined.

(** ** [framework/utils/utils.py] *)

(** [function_name.split("(")[0]] *)
Fixpoint extract_function_name (function_name : str) : str :=
  match function_name with
  | [] => []
  | c :: rest =>
      if char_eqb c "(" then [] else c :: extract_function_name rest
  end.

Definition get_s3_path (key : str) : str := replace "\" "/" key.

Definition pending (status : FunctionStatus) : bool :=
  bool_decide (status = PENDING).
Definition invoked (status : FunctionStatus) : bool :=
  bool_decide (status = INVOKED).
Definition not_invoked (status : FunctionStatus) : bool :=
  bool_decide (status = NOT_INVOKED).
Definition running (status : FunctionStatus) : bool :=
  bool_decide (status = RUNNING).
Definition completed (status : FunctionStatus) : bool :=
  bool_decide (status = COMPLETED).
Definition failed (status : FunctionStatus) : bool :=
  bool_decide (status = FAILED).
Definition skipped (status : FunctionStatus) : bool :=
  bool_decide (status = SKIPPED).
Definition timed_out (status : FunctionStatus) : bool :=
  bool_decide (status = TIMEOUT).

Definition has_run (status : FunctionStatus) : bool :=
  negb (pending status || invoked status || not_invoked status).

Definition has_completed (status : FunctionStatus) : bool :=
  completed status || not_invoked status.

Definition has_final_state (status : FunctionStatus) : bool :=
  completed status || not_invoked status || failed status
  || timed_out status || skipped status.

(** ** Exceptions and results *)

Inductive exn : Type :=
| S3ClientError (message : str)
| ReError                     (* [re.error]: the pattern does not compile *)
| OtherException (what : str). (* anything a collaborator raises itself *)

Inductive result (A : Type) : Type :=
| Returned (a : A)
| Raised (e : exn).
Arguments Returned {A} a.
Arguments Raised {A} e.

(** ** [framework/s3_client.py] *)

(** What [boto3]'s [head_object] does on a call: it returns, raises a
    [ClientError] carrying [e.response["Error"]["Code"]] and its text
    [str(e)], or raises something else. *)
Inductive head_response : Type :=
| HeadReturns
| HeadClientError (code : str) (text : str)
| HeadRaises (what : str).

Record FaaSrS3Client : Type := {
  head_object : str → str → head_response;   (* Bucket, Key *)
  _bucket_name : str;
}.

Definition object_exists (self : FaaSrS3Client) (key : str) : result bool :=
  match head_object self (_bucket_name self) key with
  | HeadClientError code text =>
      if bool_decide (code = "404" :> str) then Returned false
      else Raised (S3ClientError ("Error checking object existence: " ++ text))
  | HeadRaises what => Raised (OtherException what)
  | HeadReturns => Returned true
  end.

(** ** The log source

    Modelled from the spec: [framework/faasr_function_logger.py] is not part
    of the sources. The tracker only reads the accumulated log text and
    calls [start] and [stop]; [stop] is idempotent. The three events a
    source delivers are the cases of [_on_log_event]. *)
Inductive LogEvent : Type := LOG_CREATED | LOG_UPDATED | LOG_COMPLETE.

Record FaaSrFunctionLogger : Type := {
  logs_content : str;
  started : bool;
}.

Definition logger_start (l : FaaSrFunctionLogger) : FaaSrFunctionLogger :=
  {| logs_content := logs_content l; started := true |}.

Definition logger_stop (l : FaaSrFunctionLogger) : FaaSrFunctionLogger :=
  {| logs_content := logs_content l; started := false |}.

(** ** Patterns built at run time

    [_extract_invocations] compiles ["^" + workflow_name + "-"] on every
    call of [re.sub]. [parse] reads the patterns whose characters are
    ordinary ones, [.] and [^]; other special characters are outside the
    fragment. *)
Definition special (c : char) : bool :=
  existsb (char_eqb c) (".^$*+?{}[]\|()" : str).

Definition parse_item (c : char) : option item :=
  if char_eqb c "^" then Some Bol
  else if char_eqb c "." then Some (One Dot)
  else if special c then None
  else Some (One (Chr c)).

Fixpoint parse (pattern : str) : option regex :=
  match pattern with
  | [] => Some []
  | c :: rest =>
      match parse_item c, parse rest with
      | Some i, Some r => Some (i :: r)
      | _, _ => None
      end
  end.

(** [re.sub(pattern, '', s)] on the fragment read by [parse]. *)
Definition fragment_sub (pattern s : str) : option str :=
  match parse pattern with
  | Some r => Some (sub_empty r s)
  | None => None
  end.

(** ** [framework/faasr_function.py] *)

Abbreviation loc := nat (only parsing).

Record FaaSrFunction : Type := {
  function_name : str;
  workflow_name : str;
  invocation_folder : str;
  s3_client : FaaSrS3Client;
  _logger : FaaSrFunctionLogger;
  _status : FunctionStatus;
  _invocations : option loc;     (* a reference to a [set] object, or [None] *)
}.

(** The tracker together with the [set] objects of the Python heap. *)
Record State : Type := {
  self : FaaSrFunction;
  sets : gmap loc (gset str);
}.

Definition with_status (st : FunctionStatus) (f : FaaSrFunction)
    : FaaSrFunction :=
  {| function_name := function_name f; workflow_name := workflow_name f;
     invocation_folder := invocation_folder f; s3_client := s3_client f;
     _logger := _logger f; _status := st; _invocations := _invocations f |}.

Definition with_invocations (i : option loc) (f : FaaSrFunction)
    : FaaSrFunction :=
  {| function_name := function_name f; workflow_name := workflow_name f;
     invocation_folder := invocation_folder f; s3_client := s3_client f;
     _logger := _logger f; _status := _status f; _invocations := i |}.

Definition with_logger (l : FaaSrFunctionLogger) (f : FaaSrFunction)
    : FaaSrFunction :=
  {| function_name := function_name f; workflow_name := workflow_name f;
     invocation_folder := invocation_folder f; s3_client := s3_client f;
     _logger := l; _status := _status f; _invocations := _invocations f |}.

(** Methods run in a state monad with exceptions. *)
Definition M (A : Type) : Type := State → result A * State.

Definition ret {A} (a : A) : M A := λ σ, (Returned a, σ).

Definition bind {A B} (m : M A) (f : A → M B) : M B :=
  λ σ, match m σ with
       | (Returned a, σ') => f a σ'
       | (Raised e, σ') => (Raised e, σ')
       end.

Definition raise {A} (e : exn) : M A := λ σ, (Raised e, σ).

Definition get_self : M FaaSrFunction := λ σ, (Returned (self σ), σ).

Definition modify_self (f : FaaSrFunction → FaaSrFunction) : M unit :=
  λ σ, (Returned tt, {| self := f (self σ); sets := sets σ |}).

(** A new [set] object holding [X]. *)
Definition alloc_set (X : gset str) : M loc :=
  λ σ, let l := fresh (dom (sets σ)) in
       (Returned l, {| self := self σ; sets := <[l := X]> (sets σ) |}).

(** The elements of the [set] object at [l]. *)
Definition read_set (l : loc) : M (gset str) :=
  λ σ, (Returned (default ∅ (sets σ !! l)), σ).

(** [s.add(x)] on the [set] object at [l]. *)
Definition set_add (l : loc) (x : str) : M unit :=
  λ σ, (Returned tt,
        {| self := self σ; sets := alter (λ X, {[x]} ∪ X) l (sets σ) |}).

Definition lift {A} (r : result A) : M A :=
  match r with Returned a => ret a | Raised e => raise e end.

Declare Scope py_scope.
Delimit Scope py_scope with py.
Notation "x <- m ;; k" := (bind m (λ x, k))
  (at level 100, m at next level, right associativity) : py_scope.
Notation "m ;; k" := (bind m (λ _, k))
  (at level 100, right associativity) : py_scope.
Local Open Scope py_scope.

(** The [done_key] property. *)
Definition done_key (f : FaaSrFunction) : str :=
  let s3_function_name := replace ")" [] (replace "(" "." (function_name f)) in
  get_s3_path
    (invocation_folder f ++ "/function_completions/" ++ s3_function_name
     ++ ".done").

Section Tracker.
(** [re.sub(pattern, '', s)] of Python's [re] module: [None] when the
    pattern does not compile. *)
Variable re_sub_empty : str → str → option str.

(** [__init__] *)
Definition new (function_name workflow_name invocation_folder : str)
    (s3_client : FaaSrS3Client) : FaaSrFunction :=
  {| function_name := function_name; workflow_name := workflow_name;
     invocation_folder := invocation_folder; s3_client := s3_client;
     _logger := logger_start {| logs_content := []; started := false |};
     _status := PENDING; _invocations := None |}.

(** The [status] property. *)
Definition status : M FunctionStatus :=
  f <- get_self;; ret (_status f).

(** The [invocations] property. *)
Definition invocations : M (option loc) :=
  f <- get_self;;
  match _invocations f with
  | None => ret None
  | Some l => X <- read_set l;; l' <- alloc_set X;; ret (Some l')
  end.

Definition set_status (st : FunctionStatus) : M unit :=
  modify_self (with_status st).

Definition start : M unit :=
  modify_self (λ f, with_logger (logger_start (_logger f)) f).

Definition _check_for_failure : M bool :=
  f <- get_self;;
  ret (bool_decide (is_Some (search failed_regex (logs_content (_logger f))))).

Definition _check_for_completion : M bool :=
  f <- get_self;; lift (object_exists (s3_client f) (done_key f)).

(** [re.sub(r"^" + self.workflow_name + "-", '', invocation)] over the
    matches, left to right; the first pattern error ends the loop. *)
Fixpoint sub_all (pattern : str) (found : list str) : result (list str) :=
  match found with
  | [] => Returned []
  | invocation :: rest =>
      match re_sub_empty pattern invocation with
      | None => Raised ReError
      | Some name =>
          match sub_all pattern rest with
          | Returned names => Returned (name :: names)
          | Raised e => Raised e
          end
      end
  end.

Definition _extract_invocations : M unit :=
  f <- get_self;;
  let logs_content := logs_content (_logger f) in
  names <- lift (sub_all ("^" ++ workflow_name f ++ "-")
                   (findall invoked_regex logs_content));;
  l <- alloc_set (list_to_set names);;
  modify_self (with_invocations (Some l)).

Definition _logger_stop : M unit :=
  modify_self (λ f, with_logger (logger_stop (_logger f)) f).

Definition _handle_log_created : M unit :=
  set_status RUNNING.

Definition _handle_log_updated : M unit :=
  is_failed <- _check_for_failure;;
  if is_failed then
    (set_status FAILED;; _logger_stop)
  else
    is_complete <- _check_for_completion;;
    if is_complete then
      (set_status COMPLETED;; _logger_stop)
    else ret tt.

Definition _handle_log_complete : M unit :=
  _extract_invocations;;
  is_failed <- _check_for_failure;;
  if is_failed then set_status FAILED
  else
    is_complete <- _check_for_completion;;
    if is_complete then set_status COMPLETED else ret tt.

Definition _on_log_event (event : LogEvent) : M unit :=
  match event with
  | LOG_CREATED => _handle_log_created
  | LOG_UPDATED => _handle_log_updated
  | LOG_COMPLETE => _handle_log_complete
  end.

Definition function_complete : M bool := _check_for_completion.
Definition function_failed : M bool := _check_for_failure.
End Tracker.

(** Between two events the log source and the store move on: the tracker
    then sees the new log text and the new answers of [head_object]. *)
Definition observe (logs : str) (head : str → str → head_response)
    (σ : State) : State :=
  let f := self σ in
  {| self :=
       {| function_name := function_name f; workflow_name := workflow_name f;
          invocation_folder := invocation_folder f;
          s3_client := {| head_object := head;
                          _bucket_name := _bucket_name (s3_client f) |};
          _logger := {| logs_content := logs;
                        started := started (_logger f) |};
          _status := _status f; _invocations := _invocations f |};
     sets := sets σ |}.

(** ** Runs of a tracker *)

(** What can happen to a tracker: its log source delivers an event, at which
    time the tracker sees the log text [logs] and the store answers [head];
    or a caller forces a status through [set_status]. *)
Inductive action : Type :=
| Deliver (event : LogEvent) (logs : str) (head : str → str → head_response)
| Override (st : FunctionStatus).

Definition is_complete_event (a : action) : bool :=
  match a with Deliver LOG_COMPLETE _ _ => true | _ => false end.

Definition is_delivery (a : action) : bool :=
  match a with Deliver _ _ _ => true | Override _ => false end.

Definition event_of (a : action) : option LogEvent :=
  match a with Deliver event _ _ => Some event | Override _ => None end.

(** The order in which a log source delivers: at most one LOG_CREATED, then
    LOG_UPDATED any number of times, then one LOG_COMPLETE. *)
Fixpoint updates_then_complete (events : list LogEvent) : bool :=
  match events with
  | [LOG_COMPLETE] => true
  | LOG_UPDATED :: rest => updates_then_complete rest
  | _ => false
  end.

Definition in_order (events : list LogEvent) : bool :=
  match events with
  | LOG_CREATED :: rest => updates_then_complete rest
  | _ => updates_then_complete events
  end.

Section Runs.
Variable re_sub_empty : str → str → option str.

(** The state after an action; an exception leaves the state reached when
    it was raised. *)
Definition step (a : action) (σ : State) : State :=
  match a with
  | Deliver event logs head =>
      snd (_on_log_event re_sub_empty event (observe logs head σ))
  | Override st => snd (set_status st σ)
  end.

Definition run (acts : list action) (σ : State) : State :=
  fold_left (λ σ a, step a σ) acts σ.

(** Modelled from the spec: a log source that has been stopped delivers no
    further event ([framework/faasr_function_logger.py] is not part of the
    sources). *)
Definition step_while_started (a : action) (σ : State) : State :=
  match a with
  | Deliver _ _ _ =>
      if started (_logger (self σ)) then step a σ else σ
  | Override _ => step a σ
  end.

Definition run_while_started (acts : list action) (σ : State) : State :=
  fold_left (λ σ a, step_while_started a σ) acts σ.

End Runs.

(** ** States and notions used in the statements *)

(** The state after the tracker has set [st] and stopped its log source. *)
Definition settled (st : FunctionStatus) (σ : State) : State :=
  {| self := with_logger (logger_stop (_logger (self σ)))
               (with_status st (self σ));
     sets := sets σ |}.

(** The state once [_extract_invocations] has stored [names]. *)
Definition extracted (names : list str) (σ : State) : State :=
  {| self := with_invocations (Some (fresh (dom (sets σ)))) (self σ);
     sets := <[fresh (dom (sets σ)) := list_to_set names]> (sets σ) |}.

Definition forced (st : FunctionStatus) (σ : State) : State :=
  {| self := with_status st (self σ); sets := sets σ |}.

(** A delivery of LOG_UPDATED or LOG_COMPLETE. *)
Definition later_delivery (a : action) : bool :=
  match a with
  | Deliver LOG_UPDATED _ _ | Deliver LOG_COMPLETE _ _ => true
  | _ => false
  end.

(** A delivery of LOG_CREATED or LOG_UPDATED. *)
Definition early_delivery (a : action) : bool :=
  is_delivery a && negb (is_complete_event a).

(** While only LOG_CREATED and LOG_UPDATED have been handled, a terminal
    status means that the tracker has stopped its log source. *)
Definition stopped_when_terminal (σ : State) : Prop :=
  has_final_state (_status (self σ)) = true →
  started (_logger (self σ)) = false.

(** The digit zero of every script that has decimal digits of its own (the
    characters of general category Nd and value 0): [0], the Arabic-Indic
    zero and so on. The digits one to nine of the script follow their
    zero. *)
Definition zero_digits : list char :=
  [48; 1632; 1776; 1984; 2406; 2534; 2662; 2790; 2918; 3046; 3174; 3302;
   3430; 3558; 3664; 3792; 3872; 4160; 4240; 6112; 6160; 6470; 6608; 6784;
   6800; 6992; 7088; 7232; 7248; 42528; 43216; 43264; 43472; 43504; 43600;
   44016; 65296; 66720; 68912; 69734; 69872; 69942; 70096; 70384; 70736;
   70864; 71248; 71360; 71472; 71904; 72016; 72784; 73040; 73120; 92768;
   92864; 93008; 120782; 120792; 120802; 120812; 120822; 123200; 123632;
   125264; 130032]%N.

(** A Unicode decimal digit: one of the ten digits of some script. *)
Definition unicode_digit (c : char) : Prop :=
  ∃ zero, zero ∈ zero_digits ∧ (zero ≤ c ≤ zero + 9)%N.

(** An invocation token: a letter, then one or more letters, digits or
    hyphens. *)
Definition token (tok : str) : Prop :=
  ∃ c1 c2 rest, tok = c1 :: c2 :: rest ∧ letter c1 = true
                ∧ forallb name_char (c2 :: rest) = true.

(** [tok] stands right after the marker text that ends [before] (reversed)
    and is followed by [post]. *)
Definition recorded_at (before tok post : str) : Prop :=
  ends_with (rev invoked_marker) before = true ∧ token tok
  ∧ stops name_char post.

(** While the scan is inside a match, the characters it skips and the one
    just before them are name characters. *)
Definition covered (b a : str) (skip : nat) : Prop :=
  match skip with
  | O => True
  | S _ =>
      match b with c :: _ => name_char c = true | [] => False end
      ∧ forallb name_char (take skip a) = true
  end.

(** The text after the prefix [p] of [s], if [s] starts with [p]. *)
Fixpoint after_prefix (p s : str) : option str :=
  match p, s with
  | [], _ => Some s
  | c :: p', d :: s' => if char_eqb c d then after_prefix p' s' else None
  | _ :: _, [] => None
  end.

(** [s] without its leading [p], or [s] itself when it does not start with
    [p]. *)
Definition strip_prefix (p s : str) : str := default s (after_prefix p s).

(** A pattern made of ordinary characters only. *)
Definition plain (w : str) : bool := forallb (λ c, negb (special c)) w.

(** [re_sub_empty] is Python's [re.sub] on the patterns [parse] reads. *)
Definition agrees_on_fragment (re_sub_empty : str → str → option str) : Prop :=
  ∀ pattern r s, parse pattern = Some r →
                 re_sub_empty pattern s = Some (sub_empty r s).

(** ** Sample trackers, stores and logs *)

Definition forbidden_store : FaaSrS3Client :=
  {| head_object := λ _ _, HeadClientError "403" "Forbidden";
     _bucket_name := "bucket" |}.

Definition no_store : FaaSrS3Client :=
  {| head_object := λ _ _, HeadClientError "404" "Not Found";
     _bucket_name := "bucket" |}.

Definition marker_store : FaaSrS3Client :=
  {| head_object := λ _ key,
       if bool_decide (key = "run1/function_completions/f.done" :> str)
       then HeadReturns else HeadClientError "404" "Not Found";
     _bucket_name := "bucket" |}.

Definition tracker_of (name folder : str) : FaaSrFunction :=
  {| function_name := name; workflow_name := "wf";
     invocation_folder := folder; s3_client := no_store;
     _logger := {| logs_content := []; started := true |};
     _status := PENDING; _invocations := None |}.

(** A tracker whose log source currently holds [logs]. *)
Definition logged (logs : str) : State :=
  {| self := with_logger {| logs_content := logs; started := true |}
               (tracker_of "f" "run1");
     sets := ∅ |}.

(** A RUNNING tracker for function [f] of run [run1] that sees [logs] and
    the answers of [client]. *)
Definition watching (logs : str) (client : FaaSrS3Client) : State :=
  {| self := {| function_name := "f"; workflow_name := "wf";
                invocation_folder := "run1"; s3_client := client;
                _logger := {| logs_content := logs; started := true |};
                _status := RUNNING; _invocations := None |};
     sets := ∅ |}.

(** A freshly constructed tracker on a heap [h]. *)
Definition fresh_tracker (name workflow folder : str) (c : FaaSrS3Client)
    (h : gmap loc (gset str)) : State :=
  {| self := new name workflow folder c; sets := h |}.

Definition invoking_log : str :=
  lines
    ["[0.4] [INFO] [scheduler.py] GitHub Action: Successfully invoked: wf-taskA";
     "[0.5] [INFO] [scheduler.py] GitHub Action: Successfully invoked: wf-taskB";
     "[0.6] [INFO] [scheduler.py] GitHub Action: Successfully invoked: wf-taskA"].

(** A marker that exists, a log that first shows no error and then one. *)
Definition completed_then_failed : list action :=
  [Deliver LOG_CREATED [] (head_object marker_store);
   Deliver LOG_UPDATED "[0.1] [INFO] start" (head_object marker_store);
   Deliver LOG_UPDATED "[0.1] [INFO] start" (head_object marker_store);
   Deliver LOG_COMPLETE (lines ["[0.1] [INFO] start"; "[0.2] [ERROR] late"])
     (head_object marker_store)].

Definition wildcard_log : str :=
  lines
    ["[0.4] [INFO] [scheduler.py] GitHub Action: Successfully invoked: etl-v2-load"].

Definition short_name_log : str :=
  lines
    ["[0.4] [INFO] [scheduler.py] GitHub Action: Successfully invoked: wf-a"].

(** ** Further parts of the sources *)

(** [framework/utils/enums.py]: the values of the members. *)
Module InvocationStatus.
Inductive t : Type := PENDING | INVOKED | NOT_INVOKED.

Definition value (status : t) : str :=
  match status with
  | PENDING => "pending"
  | INVOKED => "invoked"
  | NOT_INVOKED => "not_invoked"
  end.
End InvocationStatus.

Definition FunctionStatus_value (status : FunctionStatus) : str :=
  match status with
  | PENDING => "pending"
  | INVOKED => "invoked"
  | NOT_INVOKED => "not_invoked"
  | RUNNING => "running"
  | COMPLETED => "completed"
  | FAILED => "failed"
  | SKIPPED => "skipped"
  | TIMEOUT => "timeout"
  end.

(** What [boto3]'s [get_object] followed by [["Body"].read()] does on a call:
    it returns the bytes of the object, raises a [ClientError], or raises
    another [Exception]. *)
Inductive get_response : Type :=
| GetReturns (body : list Byte.byte)
| GetClientError (code : str) (text : str)
| GetRaises (what : str).

Section GetObject.
(** [body.decode(encoding)]: the text, or the text of the exception it
    raises. *)
Variable decode : str → list Byte.byte → str + str.
(** The [get_object] of the [boto3] client: Bucket, Key. *)
Variable client_get_object : str → str → get_response.

Definition get_object (self : FaaSrS3Client) (key encoding : str)
    : result str :=
  match client_get_object (_bucket_name self) key with
  | GetReturns body =>
      match decode encoding body with
      | inl text => Returned text
      | inr what =>
          Raised (S3ClientError ("Unhandled error getting object: " ++ what))
      end
  | GetClientError code text =>
      if bool_decide (code = "404" :> str)
      then Raised (S3ClientError ("Object does not exist: " ++ text))
      else Raised (S3ClientError ("boto3 client error getting object: " ++ text))
  | GetRaises what =>
      Raised (S3ClientError ("Unhandled error getting object: " ++ what))
  end.
End GetObject.

(** The log text of a delivery. *)
Definition logs_of (a : action) : str :=
  match a with Deliver _ logs _ => logs | Override _ => [] end.

(** The fields of a tracker that say which function it watches. *)
Definition identity (f : FaaSrFunction) : str * str * str * str :=
  (function_name f, workflow_name f, invocation_folder f,
   _bucket_name (s3_client f)).

(** A status that handling log events can leave behind. *)
Definition log_driven (status : FunctionStatus) : bool :=
  bool_decide (status ∈ [PENDING; RUNNING; FAILED; COMPLETED]).



(** [logs] contains [part]. *)
Definition contains (part logs : str) : Prop :=
  ∃ pre post, logs = pre ++ part ++ post.

(** The marker text of an invocation line, with [c] where the pattern has
    its unescaped dot. *)
Definition marker_text (c : char) : str :=
  "[scheduler" ++ [c] ++ "py] GitHub Action: Successfully invoked: ".

(** The answers of the store at a delivery. *)
Definition answers_of (a : action) : str → str → head_response :=
  match a with
  | Deliver _ _ head => head
  | Override _ => λ _ _, HeadReturns
  end.

(** A tracker for function [name] of run [folder]. *)
Definition named (name folder : str) (f : FaaSrFunction) : Prop :=
  function_name f = name ∧ invocation_folder f = folder.

(** An action that sets a status without looking at the log or the store:
    a delivery of LOG_CREATED or an override. *)
Definition blind (a : action) : bool :=
  match a with
  | Deliver LOG_CREATED _ _ | Override _ => true
  | _ => false
  end.

(** * Properties *)

(** ** Characters *)

Lemma char_eqb_spec (c d : char) : reflect (c = d) (char_eqb c d).
Proof. apply N.eqb_spec. Qed.

Lemma char_eqb_eq (c d : char) : char_eqb c d = true ↔ c = d.
Proof. apply N.eqb_eq. Qed.

Lemma char_eqb_neq (c d : char) : char_eqb c d = false ↔ c ≠ d.
Proof. apply N.eqb_neq. Qed.

Lemma char_eqb_refl (c : char) : char_eqb c c = true.
Proof. apply N.eqb_refl. Qed.

Lemma char_eqb_sym (c d : char) : char_eqb c d = char_eqb d c.
Proof. apply N.eqb_sym. Qed.

(** ** The matcher *)

Section MatcherFacts.
Context {A : Type}.
Implicit Types (k : str → str → option A) (b a s : str).

Lemma plus_loop_is_Some greedy x b a k :
  is_Some (plus_loop greedy x b a k) ↔
  ∃ s1 s2, a = s1 ++ s2 ∧ s1 ≠ [] ∧ forallb (atom_ok x) s1 = true
           ∧ is_Some (k (rev s1 ++ b) s2).
Proof.
  revert b. induction a as [|c rest IH]; intros b; simpl.
  - split; [intros [? ?]; discriminate|].
    intros (s1 & s2 & Heq & Hne & _). destruct s1; [done | discriminate].
  - destruct (atom_ok x c) eqn:Hc.
    + assert (Hor : is_Some (plus_loop greedy x b (c :: rest) k) ↔
                    is_Some (plus_loop greedy x (c :: b) rest k)
                    ∨ is_Some (k (c :: b) rest)).
      { simpl. rewrite Hc. destruct greedy.
        - destruct (plus_loop true x (c :: b) rest k) eqn:E.
          + split; eauto.
          + split; [eauto | intros [[? ?]|?]; [discriminate | done]].
        - destruct (k (c :: b) rest) eqn:E.
          + split; eauto.
          + split; [eauto | intros [?|[? ?]]; [done | discriminate]]. }
      simpl in Hor. rewrite Hc in Hor. rewrite Hor, IH. clear Hor IH. split.
      * intros [(s1 & s2 & -> & Hne & Hall & Hk) | Hk].
        -- exists (c :: s1), s2. simpl. rewrite Hc, Hall.
           rewrite <- app_assoc. simpl. done.
        -- exists [c], rest. simpl. rewrite Hc. done.
      * intros (s1 & s2 & Heq & Hne & Hall & Hk).
        destruct s1 as [|c' s1]; [done|]. simpl in Heq. injection Heq as <- ->.
        simpl in Hall. apply andb_true_iff in Hall as [_ Hall].
        simpl in Hk. rewrite <- app_assoc in Hk. simpl in Hk.
        destruct s1 as [|c'' s1].
        -- right. done.
        -- left. exists (c'' :: s1), s2. done.
    + split; [intros [? ?]; discriminate|].
      intros (s1 & s2 & Heq & Hne & Hall & _).
      destruct s1 as [|c' s1]; [done|]. simpl in Heq. injection Heq as <- _.
      simpl in Hall. rewrite Hc in Hall. discriminate.
Qed.

Lemma exec_item_is_Some i b a k :
  is_Some (exec_item i b a k) ↔
  ∃ s1 s2, a = s1 ++ s2 ∧ item_matches i b s1
           ∧ is_Some (k (rev s1 ++ b) s2).
Proof.
  destruct i as [x| |g x|w]; simpl.
  - destruct a as [|c rest].
    + split; [intros [? ?]; discriminate|].
      intros (s1 & s2 & Heq & (c & -> & _) & _). discriminate.
    + destruct (atom_ok x c) eqn:Hc.
      * split.
        -- intros Hk. exists [c], rest. eauto.
        -- intros (s1 & s2 & Heq & (c' & -> & _) & Hk).
           injection Heq as <- <-. done.
      * split; [intros [? ?]; discriminate|].
        intros (s1 & s2 & Heq & (c' & -> & Hc') & _).
        injection Heq as <- _. congruence.
  - destruct b as [|c b].
    + split.
      * intros Hk. exists [], a. done.
      * intros (s1 & s2 & -> & (-> & _) & Hk). done.
    + split; [intros [? ?]; discriminate|].
      intros (s1 & s2 & _ & (_ & ?) & _). discriminate.
  - rewrite plus_loop_is_Some.
    split; intros (s1 & s2 & H); exists s1, s2; tauto.
  - destruct (ends_with (rev w) b) eqn:Hw.
    + split.
      * intros Hk. exists [], a. done.
      * intros (s1 & s2 & -> & (-> & _) & Hk). done.
    + split; [intros [? ?]; discriminate|].
      intros (s1 & s2 & _ & (_ & ?) & _). discriminate.
Qed.

Lemma exec_is_Some r b a k :
  is_Some (exec r b a k) ↔
  ∃ s1 s2, a = s1 ++ s2 ∧ matches r b s1 ∧ is_Some (k (rev s1 ++ b) s2).
Proof.
  revert b a k. induction r as [|i r IH]; intros b a k; simpl.
  - split.
    + intros Hk. exists [], a. done.
    + intros (s1 & s2 & -> & -> & Hk). done.
  - rewrite exec_item_is_Some. split.
    + intros (s1 & s2 & -> & Hi & Hk). apply IH in Hk as (t1 & t2 & -> & Hr & Hk).
      exists (s1 ++ t1), t2. rewrite <- app_assoc. split; [done|].
      split; [eauto|]. by rewrite rev_app_distr, <- app_assoc.
    + intros (s & s2 & -> & (s1 & t1 & -> & Hi & Hr) & Hk).
      exists s1, (t1 ++ s2). rewrite <- app_assoc. split; [done|].
      split; [done|]. apply IH. exists t1, s2.
      rewrite rev_app_distr, <- app_assoc in Hk. done.
Qed.
End MatcherFacts.

Example search_leftmost :
  search failed_regex "x [1.2] [ERROR] y [3] [ERROR]" = Some ("[1.2] [ERROR]" : str).
Proof. reflexivity. Qed.

Example findall_marker_dot :
  findall invoked_regex
    "[schedulerXpy] GitHub Action: Successfully invoked: ab cd"
  = ["ab" : str].
Proof. reflexivity. Qed.

Example sub_leading_only :
  fragment_sub "^wf-" "wf-wf-a" = Some ("wf-a" : str)
  ∧ fragment_sub "^wf-" "a-wf-b" = Some ("a-wf-b" : str)
  ∧ fragment_sub "^w(-" "wf-a" = None.
Proof. split_and!; reflexivity. Qed.

(** ** The status predicates *)

(** C9: [has_final_state] holds of exactly COMPLETED, NOT_INVOKED, FAILED,
    TIMEOUT and SKIPPED, and fails on PENDING, INVOKED and RUNNING. *)
Theorem has_final_state_partition :
  has_final_state COMPLETED = true ∧ has_final_state NOT_INVOKED = true
  ∧ has_final_state FAILED = true ∧ has_final_state TIMEOUT = true
  ∧ has_final_state SKIPPED = true
  ∧ has_final_state PENDING = false ∧ has_final_state INVOKED = false
  ∧ has_final_state RUNNING = false
  ∧ ∀ status : FunctionStatus,
      has_final_state status
      = bool_decide (status ∈ [COMPLETED; FAILED; NOT_INVOKED; SKIPPED; TIMEOUT]).
Proof.
  repeat split; try reflexivity.
  intros []; vm_compute; reflexivity.
Qed.

(** ** The storage existence check *)

(** C8: [object_exists] returns [False] exactly on a client error with code
    404, returns [True] exactly when [head_object] returns, and raises
    [S3ClientError] on every client error with another code; when it raises
    there is no returned value. *)
Theorem object_exists_cases (c : FaaSrS3Client) (key : str) :
  (object_exists c key = Returned false
   ↔ ∃ text, head_object c (_bucket_name c) key = HeadClientError "404" text)
  ∧ (object_exists c key = Returned true
     ↔ head_object c (_bucket_name c) key = HeadReturns)
  ∧ (∀ code text,
       head_object c (_bucket_name c) key = HeadClientError code text →
       code ≠ "404" →
       object_exists c key
       = Raised (S3ClientError ("Error checking object existence: " ++ text)))
  ∧ (∀ e, object_exists c key = Raised e → ∀ b, object_exists c key ≠ Returned b).
Proof.
  unfold object_exists.
  destruct (head_object c (_bucket_name c) key) as [|code text|what] eqn:E.
  - split_and!; [split; [done | intros [? ?]; done] | done | done | done].
  - case_bool_decide as Hc.
    + subst code. split_and!; [split; eauto | done | | done].
      intros code' text' [= <- <-] Hne. done.
    + split_and!; [split; [done | intros [t [= ? ?]]; done] | done | | done].
      intros code' text' [= <- <-] _. done.
  - split_and!; [split; [done | intros [? ?]; done] | done | done | done].
Qed.

Lemma object_exists_cases_witness :
  object_exists forbidden_store "run1/function_completions/f.done"
  = Raised (S3ClientError "Error checking object existence: Forbidden").
Proof.
  destruct (object_exists_cases forbidden_store
              "run1/function_completions/f.done") as (_ & _ & Hraise & _).
  apply (Hraise "403" "Forbidden"); [reflexivity | discriminate].
Defined.

(** ** The completion-marker key *)

Lemma replace_absent old new (s : str) : old ∉ s → replace old new s = s.
Proof.
  induction s as [|c s IH]; intros Hs; simpl; [done|].
  apply not_elem_of_cons in Hs as [Hc Hs].
  destruct (char_eqb_spec c old); [congruence|]. by rewrite IH.
Qed.

Lemma replace_app old new (s t : str) :
  replace old new (s ++ t) = replace old new s ++ replace old new t.
Proof.
  induction s as [|c s IH]; simpl; [done|].
  destruct (char_eqb c old); rewrite IH; [by rewrite app_assoc | done].
Qed.

Lemma replace_char_absent old new (s : str) :
  old ≠ new → old ∉ replace old [new] s.
Proof.
  intros Hne. induction s as [|c s IH]; simpl; [apply not_elem_of_nil|].
  destruct (char_eqb_spec c old); simpl; apply not_elem_of_cons; split;
    congruence || done.
Qed.

(** C2: the marker key is a function of the function name and the run
    folder alone. For a name [base(rank)] it is
    [<folder>/function_completions/<base>.<rank>.done], for a name without
    parentheses [<folder>/function_completions/<name>.done], in both cases
    with every backslash turned into a forward slash. *)
Theorem done_key_shape (f : FaaSrFunction) :
  (∀ g, function_name g = function_name f →
        invocation_folder g = invocation_folder f → done_key g = done_key f)
  ∧ (∀ base rank : str,
       function_name f = base ++ "(" ++ rank ++ ")" →
       ord "(" ∉ (base ++ rank) → ord ")" ∉ (base ++ rank) →
       done_key f
       = get_s3_path (invocation_folder f ++ "/function_completions/"
                      ++ base ++ "." ++ rank ++ ".done"))
  ∧ (ord "(" ∉ function_name f → ord ")" ∉ function_name f →
     done_key f
     = get_s3_path (invocation_folder f ++ "/function_completions/"
                    ++ function_name f ++ ".done"))
  ∧ (∀ s, get_s3_path s
          = map (λ c, if char_eqb c "\" then ord "/" else c) s)
  ∧ (ord "\" ∉ done_key f)
  ∧ (function_name f = "f" → invocation_folder f = "run1" →
     done_key f = "run1/function_completions/f.done")
  ∧ (function_name f = "f(2)" → invocation_folder f = "run1" →
     done_key f = "run1/function_completions/f.2.done").
Proof.
  split_and!.
  - intros g Hn Hf. unfold done_key. by rewrite Hn, Hf.
  - intros base rank Hname Hopen Hclose. unfold done_key. rewrite Hname.
    apply not_elem_of_app in Hopen as [Ho1 Ho2].
    apply not_elem_of_app in Hclose as [Hc1 Hc2].
    f_equal. rewrite !replace_app. simpl.
    rewrite (replace_absent "(" _ base), (replace_absent "(" _ rank) by done.
    rewrite ?replace_app. simpl.
    rewrite (replace_absent ")" _ base), (replace_absent ")" _ rank) by done.
    rewrite app_nil_r, <- (app_assoc base). reflexivity.
  - intros Hopen Hclose. unfold done_key.
    by rewrite (replace_absent "("), (replace_absent ")").
  - intros s. unfold get_s3_path. induction s as [|c s IH]; simpl in *; [done|].
    destruct (char_eqb c "\"); simpl; by rewrite IH.
  - unfold done_key, get_s3_path. apply replace_char_absent. by vm_compute.
  - intros Hn Hf. unfold done_key. rewrite Hn, Hf. reflexivity.
  - intros Hn Hf. unfold done_key. rewrite Hn, Hf. reflexivity.
Qed.

Lemma done_key_shape_witness :
  done_key (tracker_of "test_ranked(1)" "run\7")
  = "run/7/function_completions/test_ranked.1.done"
  ∧ done_key (tracker_of "f" "run1") = "run1/function_completions/f.done"
  ∧ done_key (tracker_of "f(2)" "run1") = "run1/function_completions/f.2.done".
Proof.
  split_and!.
  - destruct (done_key_shape (tracker_of "test_ranked(1)" "run\7"))
      as (_ & Hrank & _).
    rewrite (Hrank "test_ranked" "1");
      [reflexivity | reflexivity | compute_done | compute_done].
  - apply (done_key_shape (tracker_of "f" "run1")); reflexivity.
  - apply (done_key_shape (tracker_of "f(2)" "run1")); reflexivity.
Defined.

(** ** The failure check *)

Lemma match_at_is_Some r (b a : str) :
  is_Some (match_at r b a) ↔ ∃ s1 s2, a = s1 ++ s2 ∧ matches r b s1.
Proof.
  unfold match_at. rewrite exec_is_Some.
  split; intros (s1 & s2 & H); exists s1, s2; intuition eauto.
Qed.

Lemma search_from_is_Some r (b a : str) :
  is_Some (search_from r b a) ↔
  ∃ pre mid post, a = pre ++ mid ++ post ∧ matches r (rev pre ++ b) mid.
Proof.
  revert b. induction a as [|c a IH]; intros b; simpl.
  - destruct (match_at r b []) eqn:E.
    + split; [intros _ | eauto].
      destruct (proj1 (match_at_is_Some r b [])) as (s1 & s2 & Heq & Hm);
        [rewrite E; eauto|].
      exists [], s1, s2. done.
    + split; [intros [? ?]; discriminate|].
      intros (pre & mid & post & Heq & Hm).
      symmetry in Heq. apply app_eq_nil in Heq as [-> Heq].
      assert (is_Some (match_at r b [])) as [? ?]; [|congruence].
      apply match_at_is_Some. exists mid, post. done.
  - destruct (match_at r b (c :: a)) eqn:E.
    + split; [intros _ | eauto].
      destruct (proj1 (match_at_is_Some r b (c :: a))) as (s1 & s2 & Heq & Hm);
        [rewrite E; eauto|].
      exists [], s1, s2. done.
    + rewrite IH. split.
      * intros (pre & mid & post & -> & Hm). exists (c :: pre), mid, post.
        simpl. rewrite <- app_assoc. done.
      * intros (pre & mid & post & Heq & Hm). destruct pre as [|c' pre].
        -- assert (is_Some (match_at r b (c :: a))) as [? ?]; [|congruence].
           apply match_at_is_Some. exists mid, post. done.
        -- simpl in Heq. injection Heq as <- ->. exists pre, mid, post.
           simpl in Hm. rewrite <- app_assoc in Hm. done.
Qed.

Lemma search_is_Some r (s : str) :
  is_Some (search r s) ↔
  ∃ pre mid post, s = pre ++ mid ++ post ∧ matches r (rev pre) mid.
Proof.
  unfold search. rewrite search_from_is_Some.
  split; intros (pre & mid & post & Heq & Hm); exists pre, mid, post;
    rewrite app_nil_r in *; done.
Qed.

Lemma matches_app r1 r2 (b s : str) :
  matches (r1 ++ r2) b s ↔
  ∃ s1 s2, s = s1 ++ s2 ∧ matches r1 b s1 ∧ matches r2 (rev s1 ++ b) s2.
Proof.
  revert b s. induction r1 as [|i r1 IH]; intros b s; simpl.
  - split.
    + intros Hm. exists [], s. done.
    + intros (s1 & s2 & -> & -> & Hm). done.
  - split.
    + intros (s1 & s2 & -> & Hi & Hm).
      apply IH in Hm as (t1 & t2 & -> & Hm1 & Hm2).
      exists (s1 ++ t1), t2. rewrite <- app_assoc. split; [done|].
      split; [eauto 6|]. by rewrite rev_app_distr, <- app_assoc.
    + intros (u & t2 & -> & (s1 & t1 & -> & Hi & Hm1) & Hm2).
      exists s1, (t1 ++ t2). rewrite <- app_assoc. split; [done|].
      split; [done|]. apply IH. exists t1, t2.
      rewrite rev_app_distr, <- app_assoc in Hm2. done.
Qed.

Lemma matches_lits (w b s : str) : matches (ones (lits w)) b s ↔ s = w.
Proof.
  revert b s. induction w as [|c w IH]; intros b s; simpl; [done|]. split.
  - intros (s1 & s2 & -> & (c' & -> & Hc) & Hm).
    apply char_eqb_eq in Hc as ->. apply IH in Hm as ->. done.
  - intros ->. exists [c], w. split; [done|]. split.
    + exists c. by rewrite char_eqb_refl.
    + by apply IH.
Qed.

Lemma matches_failed_regex (b s : str) :
  matches failed_regex b s ↔
  ∃ ts, s = "[" ++ ts ++ "] [ERROR]" ∧ ts ≠ []
        ∧ forallb digit_or_dot ts = true.
Proof.
  unfold failed_regex.
  change ([One (Chr "["); Plus false (Cls digit_or_dot)] ++ ?r)
    with (One (Chr "[") :: Plus false (Cls digit_or_dot) :: r).
  cbn [matches item_matches atom_ok]. split.
  - intros (s1 & s2 & -> & (c & -> & Hc) & t1 & t2 & -> & (Hne & Hall) & Hm).
    apply char_eqb_eq in Hc as ->. apply matches_lits in Hm as ->.
    exists t1. done.
  - intros (ts & -> & Hne & Hall). exists [ord "["], (ts ++ "] [ERROR]").
    split; [done|]. split; [by exists (ord "[")|].
    exists ts, ("] [ERROR]" : str). split; [done|]. split; [done|].
    by apply matches_lits.
Qed.

Lemma digit_or_dot_spec (c : char) :
  digit_or_dot c = true ↔ decimal c = true ∨ c = ord ".".
Proof. unfold digit_or_dot. by rewrite orb_true_iff, char_eqb_eq. Qed.

Lemma decimal_unicode_digit (c : char) :
  decimal c = true ↔ unicode_digit c.
Proof.
  assert (forallb (λ zero,
            existsb (λ run, (fst run <=? zero)%N && (zero + 9 <=? snd run)%N)
              decimal_runs) zero_digits = true) as Hzeros by reflexivity.
  assert (forallb (λ run,
            forallb (λ d, existsb (λ zero, in_range zero (zero + 9)%N d)
                            zero_digits)
              (map N.of_nat
                 (seq (N.to_nat (fst run))
                    (S (N.to_nat (snd run) - N.to_nat (fst run))))))
            decimal_runs = true) as Hruns by (vm_compute; reflexivity).
  rewrite forallb_forall in Hzeros, Hruns.
  unfold decimal, unicode_digit. rewrite existsb_exists. split.
  - intros (run & Hin & Hc). specialize (Hruns run Hin).
    rewrite forallb_forall in Hruns.
    unfold in_range in Hc. apply andb_true_iff in Hc as [Hlo Hhi].
    apply N.leb_le in Hlo, Hhi.
    assert (In c (map N.of_nat
                    (seq (N.to_nat (fst run))
                       (S (N.to_nat (snd run) - N.to_nat (fst run))))))
      as Hc.
    { apply in_map_iff. exists (N.to_nat c). split; [apply N2Nat.id|].
      apply in_seq. lia. }
    apply Hruns, existsb_exists in Hc as (zero & Hz & Hd).
    exists zero. split; [by apply list_elem_of_In|].
    unfold in_range in Hd. apply andb_true_iff in Hd as [H1 H2].
    apply N.leb_le in H1, H2. done.
  - intros (zero & Hz & Hlo & Hhi). apply list_elem_of_In in Hz.
    destruct (proj1 (existsb_exists _ _) (Hzeros zero Hz))
      as (run & Hin & Hrun).
    apply andb_true_iff in Hrun as [H1 H2]. apply N.leb_le in H1, H2.
    exists run. split; [done|]. unfold in_range.
    apply andb_true_iff. split; apply N.leb_le; unfold char in *; lia.
Qed.

Lemma unicode_digit_first_256 (a : ascii) :
  unicode_digit (ord a) ↔ ord a ∈ ("0123456789" : str).
Proof.
  rewrite <- decimal_unicode_digit.
  destruct a as [[] [] [] [] [] [] [] []];
    (split; [intros H; vm_compute in H; first [discriminate | compute_done]
            | intros H; first [reflexivity | exfalso; revert H; compute_done]]).
Qed.

(** C3: the failure check answers [True] exactly when the log text contains,
    at any position, [[<timestamp>] [ERROR]] with a timestamp of one or more
    digits and dots, a digit being what [\d] matches in a [str] pattern: a
    Unicode decimal digit, which among the first 256 characters is one of
    [0-9]. It answers [True] on [[12.34] [ERROR]], also with a timestamp of
    Arabic-Indic digits, and [False] on texts whose timestamp lacks a
    bracket, is empty or holds other characters (a colon, a superscript
    two). *)
Theorem check_for_failure_spec :
  (∀ σ : State,
     ∃ b : bool,
       _check_for_failure σ = (Returned b, σ)
       ∧ (b = true ↔
          ∃ pre ts post : str,
            logs_content (_logger (self σ))
            = pre ++ "[" ++ ts ++ "] [ERROR]" ++ post
            ∧ ts ≠ [] ∧ ∀ c, c ∈ ts → unicode_digit c ∨ c = ord "."))
  ∧ (∀ a : ascii, unicode_digit (ord a) ↔ ord a ∈ ("0123456789" : str))
  ∧ fst (_check_for_failure (logged "[12.34] [ERROR]")) = Returned true
  ∧ fst (_check_for_failure
           (logged (lines ["[0.1] [INFO] start"; "[12.34] [ERROR] boom"])))
    = Returned true
  ∧ fst (_check_for_failure (logged ("[" ++ [1633; 1634]%N ++ "] [ERROR]")))
    = Returned true
  ∧ fst (_check_for_failure (logged "[0.1] [INFO] start")) = Returned false
  ∧ fst (_check_for_failure (logged "12.34 [ERROR]")) = Returned false
  ∧ fst (_check_for_failure (logged "[12.34 [ERROR]")) = Returned false
  ∧ fst (_check_for_failure (logged "12.34] [ERROR]")) = Returned false
  ∧ fst (_check_for_failure (logged "[] [ERROR]")) = Returned false
  ∧ fst (_check_for_failure (logged "[12:34] [ERROR]")) = Returned false
  ∧ fst (_check_for_failure (logged ("[" ++ [178%N] ++ "] [ERROR]")))
    = Returned false.
Proof.
  split; [|split; [apply unicode_digit_first_256 | split_and!; reflexivity]].
  intros σ. eexists. split; [reflexivity|].
  rewrite bool_decide_eq_true, search_is_Some. split.
  - intros (pre & mid & post & Heq & Hm).
    apply matches_failed_regex in Hm as (ts & -> & Hne & Hall).
    exists pre, ts, post. rewrite Heq, <- !app_assoc. split; [done|].
    split; [done|]. intros c Hc.
    rewrite <- decimal_unicode_digit. apply digit_or_dot_spec.
    rewrite forallb_forall in Hall. apply Hall. by apply list_elem_of_In.
  - intros (pre & ts & post & Heq & Hne & Hall).
    exists pre, ("[" ++ ts ++ "] [ERROR]"), post.
    rewrite Heq, <- !app_assoc. split; [done|].
    apply matches_failed_regex. exists ts. split; [done|]. split; [done|].
    apply forallb_forall. intros c Hc. apply digit_or_dot_spec.
    rewrite decimal_unicode_digit. by apply Hall, list_elem_of_In.
Qed.

(** ** Handling [LOG_UPDATED] *)

Ltac run_method :=
  unfold _handle_log_complete, _handle_log_updated, _handle_log_created,
    _check_for_completion, _check_for_failure, _logger_stop, set_status,
    status, modify_self, get_self, lift, bind, ret, raise;
  cbn [self sets fst snd].

Lemma state_eta (σ : State) : {| self := self σ; sets := sets σ |} = σ.
Proof. by destruct σ. Qed.

(** C1: on [LOG_UPDATED] the failure pattern is tried first: when it matches
    the log text the status becomes FAILED and the log source is stopped,
    whatever the store would answer; otherwise, when the marker object
    exists, the status becomes COMPLETED and the log source is stopped;
    otherwise nothing changes (and an error of the store is passed on). *)
Theorem handle_log_updated_spec (σ : State) :
  let f := self σ in
  let logs := logs_content (_logger f) in
  (is_Some (search failed_regex logs) →
   _handle_log_updated σ = (Returned tt, settled FAILED σ)
   ∧ _status (self (settled FAILED σ)) = FAILED
   ∧ started (_logger (self (settled FAILED σ))) = false)
  ∧ (search failed_regex logs = None →
     object_exists (s3_client f) (done_key f) = Returned true →
     _handle_log_updated σ = (Returned tt, settled COMPLETED σ)
     ∧ _status (self (settled COMPLETED σ)) = COMPLETED
     ∧ started (_logger (self (settled COMPLETED σ))) = false)
  ∧ (search failed_regex logs = None →
     object_exists (s3_client f) (done_key f) = Returned false →
     _handle_log_updated σ = (Returned tt, σ))
  ∧ (search failed_regex logs = None →
     ∀ e, object_exists (s3_client f) (done_key f) = Raised e →
          _handle_log_updated σ = (Raised e, σ))
  ∧ (∀ re_sub_empty,
       _on_log_event re_sub_empty LOG_UPDATED σ = _handle_log_updated σ).
Proof.
  intros f logs. subst f logs. split_and!; [| | | |done].
  - intros Hfail. split; [|done]. run_method.
    by rewrite (bool_decide_eq_true_2 _ Hfail).
  - intros Hfail Hdone. split; [|done]. run_method.
    rewrite Hfail, bool_decide_eq_false_2 by (by intros [? ?]).
    cbv beta. by rewrite Hdone.
  - intros Hfail Hdone. run_method.
    rewrite Hfail, bool_decide_eq_false_2 by (by intros [? ?]).
    cbv beta. by rewrite Hdone.
  - intros Hfail e Hdone. run_method.
    rewrite Hfail, bool_decide_eq_false_2 by (by intros [? ?]).
    cbv beta. by rewrite Hdone.
Qed.

Lemma handle_log_updated_spec_witness :
  _status (self (snd (_handle_log_updated
     (watching "[3.5] [ERROR] failed" marker_store)))) = FAILED
  ∧ _status (self (snd (_handle_log_updated
       (watching "[3.5] [INFO] done" marker_store)))) = COMPLETED
  ∧ _status (self (snd (_handle_log_updated
       (watching "[3.5] [INFO] working" no_store)))) = RUNNING
  ∧ _handle_log_updated (watching "[3.5] [INFO] working" forbidden_store)
    = (Raised (S3ClientError "Error checking object existence: Forbidden"),
       watching "[3.5] [INFO] working" forbidden_store).
Proof.
  split_and!.
  - destruct (handle_log_updated_spec
                (watching "[3.5] [ERROR] failed" marker_store))
      as (Hfailed & _).
    destruct Hfailed as (-> & _); [compute_done | reflexivity].
  - destruct (handle_log_updated_spec
                (watching "[3.5] [INFO] done" marker_store))
      as (_ & Hdone & _).
    destruct Hdone as (-> & _); reflexivity.
  - destruct (handle_log_updated_spec
                (watching "[3.5] [INFO] working" no_store))
      as (_ & _ & Hnone & _).
    rewrite Hnone; reflexivity.
  - destruct (handle_log_updated_spec
                (watching "[3.5] [INFO] working" forbidden_store))
      as (_ & _ & _ & Hraise & _).
    apply Hraise; reflexivity.
Defined.

(** ** The handlers, step by step *)

Section HandlerFacts.
Variable re_sub_empty : str → str → option str.

Lemma with_status_same (f : FaaSrFunction) : with_status (_status f) f = f.
Proof. by destruct f. Qed.

Lemma handle_log_updated_run (σ : State) :
  _handle_log_updated σ =
  if bool_decide (is_Some (search failed_regex (logs_content (_logger (self σ)))))
  then (Returned tt, settled FAILED σ)
  else match object_exists (s3_client (self σ)) (done_key (self σ)) with
       | Returned true => (Returned tt, settled COMPLETED σ)
       | Returned false => (Returned tt, σ)
       | Raised e => (Raised e, σ)
       end.
Proof.
  run_method. case_bool_decide; [done|].
  by destruct (object_exists _ _) as [[]|].
Qed.

Lemma extract_invocations_run (σ : State) :
  _extract_invocations re_sub_empty σ =
  match sub_all re_sub_empty ("^" ++ workflow_name (self σ) ++ "-")
          (findall invoked_regex (logs_content (_logger (self σ)))) with
  | Returned names => (Returned tt, extracted names σ)
  | Raised e => (Raised e, σ)
  end.
Proof.
  unfold _extract_invocations, alloc_set. run_method.
  by destruct (sub_all _ _ _).
Qed.

Lemma handle_log_complete_run (σ : State) :
  _handle_log_complete re_sub_empty σ =
  match sub_all re_sub_empty ("^" ++ workflow_name (self σ) ++ "-")
          (findall invoked_regex (logs_content (_logger (self σ)))) with
  | Raised e => (Raised e, σ)
  | Returned names =>
      if bool_decide
           (is_Some (search failed_regex (logs_content (_logger (self σ)))))
      then (Returned tt, forced FAILED (extracted names σ))
      else match object_exists (s3_client (self σ)) (done_key (self σ)) with
           | Returned true => (Returned tt, forced COMPLETED (extracted names σ))
           | Returned false => (Returned tt, extracted names σ)
           | Raised e => (Raised e, extracted names σ)
           end
  end.
Proof.
  unfold _handle_log_complete, bind at 1. rewrite extract_invocations_run.
  destruct (sub_all _ _ _) as [names|e]; [|done].
  run_method. unfold extracted at 1 2. cbn [self sets].
  change (_logger (with_invocations ?i ?f)) with (_logger f).
  change (s3_client (with_invocations ?i ?f)) with (s3_client f).
  change (done_key (with_invocations ?i ?f)) with (done_key f).
  case_bool_decide; [done|].
  by destruct (object_exists _ _) as [[]|].
Qed.

(** A log-driven event other than LOG_CREATED keeps the status or sets it to
    FAILED or COMPLETED. *)
Lemma on_log_event_status (event : LogEvent) (σ : State) :
  event ≠ LOG_CREATED →
  let st' := _status (self (snd (_on_log_event re_sub_empty event σ))) in
  st' = _status (self σ) ∨ st' = FAILED ∨ st' = COMPLETED.
Proof.
  intros Hev. destruct event; [done| |]; simpl.
  - rewrite handle_log_updated_run. case_bool_decide; [by auto|].
    destruct (object_exists _ _) as [[]|]; by auto.
  - rewrite handle_log_complete_run.
    destruct (sub_all _ _ _) as [names|e]; [|by auto].
    case_bool_decide; [by auto|].
    destruct (object_exists _ _) as [[]|]; by auto.
Qed.

(** Only LOG_COMPLETE touches the invocation set. *)
Lemma step_keeps_invocations (a : action) (σ : State) :
  is_complete_event a = false →
  _invocations (self (step re_sub_empty a σ)) = _invocations (self σ)
  ∧ sets (step re_sub_empty a σ) = sets σ.
Proof.
  destruct a as [[] logs head|st]; intros Ha; try discriminate; simpl.
  - done.
  - rewrite handle_log_updated_run. case_bool_decide; [done|].
    destruct (object_exists _ _) as [[]|]; done.
  - done.
Qed.

Lemma run_keeps_invocations (acts : list action) (σ : State) :
  forallb (λ a, negb (is_complete_event a)) acts = true →
  _invocations (self (run re_sub_empty acts σ)) = _invocations (self σ)
  ∧ sets (run re_sub_empty acts σ) = sets σ.
Proof.
  revert σ. induction acts as [|a acts IH]; intros σ Hacts; simpl; [done|].
  simpl in Hacts. apply andb_true_iff in Hacts as [Ha Hacts].
  apply negb_true_iff in Ha.
  destruct (IH (step re_sub_empty a σ) Hacts) as [-> ->].
  by apply step_keeps_invocations.
Qed.

End HandlerFacts.

(** ** The explicit override *)

(** C7: [set_status] stores exactly the given value whatever the current
    one is, leaves the log source as it is, is seen by the next read of
    [status] (SKIPPED right after construction, no event needed), and a
    later log event overwrites it. *)
Theorem set_status_overrides (re_sub_empty : str → str → option str) :
  (∀ (st : FunctionStatus) (σ : State),
     set_status st σ = (Returned tt, forced st σ)
     ∧ _status (self (forced st σ)) = st
     ∧ _logger (self (forced st σ)) = _logger (self σ)
     ∧ _invocations (self (forced st σ)) = _invocations (self σ)
     ∧ fst (status (snd (set_status st σ))) = Returned st)
  ∧ (∀ σ : State, _status (self (snd (set_status PENDING (forced FAILED σ))))
                  = PENDING)
  ∧ (∀ name workflow folder c h,
       fst (bind (set_status SKIPPED) (λ _, status)
              (fresh_tracker name workflow folder c h)) = Returned SKIPPED
       ∧ started (_logger (self (snd (set_status SKIPPED
                   (fresh_tracker name workflow folder c h))))) = true)
  ∧ (∀ (σ : State) logs head,
       _status (self (run re_sub_empty
                        [Override SKIPPED; Deliver LOG_CREATED logs head] σ))
       = RUNNING)
  ∧ (∀ (σ : State) (logs pre post : str) head,
       logs = pre ++ "[1.5] [ERROR]" ++ post →
       _status (self (run re_sub_empty
                        [Override SKIPPED; Deliver LOG_UPDATED logs head] σ))
       = FAILED).
Proof.
  split_and!; try done.
  intros σ logs pre post head Hlogs. simpl. rewrite handle_log_updated_run.
  rewrite bool_decide_eq_true_2; [done|].
  apply search_is_Some. exists pre, ("[1.5] [ERROR]" : str), post.
  split; [done|]. apply matches_failed_regex. by exists ("1.5" : str).
Qed.

Lemma set_status_overrides_witness :
  _status (self (run fragment_sub
     [Override SKIPPED;
      Deliver LOG_UPDATED (lines ["[0.2] [INFO] start"; "[1.5] [ERROR] boom"])
        (head_object no_store)]
     (fresh_tracker "f" "wf" "run1" no_store ∅))) = FAILED.
Proof.
  destruct (set_status_overrides fragment_sub) as (_ & _ & _ & _ & Hlater).
  apply (Hlater _ _ (lines ["[0.2] [INFO] start"]) (" boom" ++ [newline])).
  reflexivity.
Defined.

(** ** The invocation set *)

Lemma invocations_run (σ : State) (l : loc) (X : gset str) :
  _invocations (self σ) = Some l → sets σ !! l = Some X →
  invocations σ
  = (Returned (Some (fresh (dom (sets σ)))),
     {| self := self σ; sets := <[fresh (dom (sets σ)) := X]> (sets σ) |}).
Proof.
  intros Hl HX. unfold invocations, read_set, alloc_set. run_method.
  by rewrite Hl, HX.
Qed.

Lemma step_complete_stores re_sub_empty (σ : State) logs head
    (names : list str) :
  sub_all re_sub_empty ("^" ++ workflow_name (self σ) ++ "-")
    (findall invoked_regex logs) = Returned names →
  ∃ l, _invocations
         (self (step re_sub_empty (Deliver LOG_COMPLETE logs head) σ)) = Some l
       ∧ sets (step re_sub_empty (Deliver LOG_COMPLETE logs head) σ) !! l
         = Some (list_to_set names).
Proof.
  intros Hsub. cbn [step _on_log_event]. rewrite handle_log_complete_run.
  cbn [observe self workflow_name _logger logs_content]. rewrite Hsub.
  exists (fresh (dom (sets σ))).
  case_bool_decide; [|destruct (object_exists _ _) as [[]|]];
    (split; [done|]); apply lookup_insert_eq.
Qed.

(** Once LOG_COMPLETE has stored [names], a read of [invocations] returns a
    new [set] object with these elements; changing it leaves the stored set
    as it is. *)
Lemma read_after_complete re_sub_empty (σ : State) logs head
    (names : list str) :
  sub_all re_sub_empty ("^" ++ workflow_name (self σ) ++ "-")
    (findall invoked_regex logs) = Returned names →
  let σ' := step re_sub_empty (Deliver LOG_COMPLETE logs head) σ in
  ∃ l l' σ'',
    _invocations (self σ') = Some l
    ∧ sets σ' !! l = Some (list_to_set names)
    ∧ invocations σ' = (Returned (Some l'), σ'')
    ∧ l' ≠ l
    ∧ sets σ'' !! l' = Some (list_to_set names)
    ∧ self σ'' = self σ'
    ∧ ∀ x, fst (read_set l (snd (set_add l' x σ'')))
           = Returned (list_to_set names).
Proof.
  intros Hsub σ'.
  destruct (step_complete_stores re_sub_empty σ logs head names Hsub)
    as (l & Hl & HX).
  fold σ' in Hl, HX. clearbody σ'.
  set (l' := fresh (dom (sets σ'))).
  assert (l' ≠ l) as Hne.
  { intros Heq. apply (is_fresh (dom (sets σ'))). fold l'.
    rewrite Heq. apply elem_of_dom. eauto. }
  exists l, l', {| self := self σ'; sets := <[l' := list_to_set names]> (sets σ') |}.
  split_and!; try done.
  - by apply (invocations_run σ' l (list_to_set names)).
  - simpl. by rewrite lookup_insert_eq.
  - intros x. unfold read_set, set_add. simpl.
    rewrite lookup_alter_ne by done.
    rewrite lookup_insert_ne by done.
    by rewrite HX.
Qed.

(** C5: a freshly constructed tracker has status PENDING and its invocation
    set reads as [None]; it keeps reading as [None] whatever is delivered or
    forced, as long as no LOG_COMPLETE is delivered; once LOG_COMPLETE has
    stored a set a read returns a new set object with the same elements,
    and for a log without invocations that is an empty set, not [None]. *)
Theorem invocations_unknown_until_complete
    (re_sub_empty : str → str → option str) :
  (∀ name workflow folder c h,
     let σ := fresh_tracker name workflow folder c h in
     status σ = (Returned PENDING, σ) ∧ invocations σ = (Returned None, σ))
  ∧ (∀ (acts : list action) (σ : State),
       _invocations (self σ) = None →
       forallb (λ a, negb (is_complete_event a)) acts = true →
       invocations (run re_sub_empty acts σ)
       = (Returned None, run re_sub_empty acts σ))
  ∧ (∀ (σ : State) logs head (names : list str),
       sub_all re_sub_empty ("^" ++ workflow_name (self σ) ++ "-")
         (findall invoked_regex logs) = Returned names →
       let σ' := step re_sub_empty (Deliver LOG_COMPLETE logs head) σ in
       ∃ l l' σ'',
         _invocations (self σ') = Some l
         ∧ sets σ' !! l = Some (list_to_set names)
         ∧ invocations σ' = (Returned (Some l'), σ'')
         ∧ l' ≠ l
         ∧ sets σ'' !! l' = Some (list_to_set names)
         ∧ self σ'' = self σ'
         ∧ ∀ x, fst (read_set l (snd (set_add l' x σ'')))
                = Returned (list_to_set names))
  ∧ (∀ (σ : State) logs head,
       findall invoked_regex logs = [] →
       let σ' := step re_sub_empty (Deliver LOG_COMPLETE logs head) σ in
       ∃ l' σ'',
         invocations σ' = (Returned (Some l'), σ'')
         ∧ sets σ'' !! l' = Some ∅).
Proof.
  split_and!.
  - done.
  - intros acts σ Hnone Hacts.
    destruct (run_keeps_invocations re_sub_empty acts σ Hacts) as [Hi _].
    unfold invocations. run_method. by rewrite Hi, Hnone.
  - apply read_after_complete.
  - intros σ logs head Hfound σ'.
    destruct (read_after_complete re_sub_empty σ logs head [])
      as (l & l' & σ'' & _ & _ & Hread & _ & Hcopy & _).
    { by rewrite Hfound. }
    by exists l', σ''.
Qed.

Lemma invocations_unknown_until_complete_witness :
  (let σ := run fragment_sub
              [Deliver LOG_CREATED [] (head_object no_store);
               Override TIMEOUT;
               Deliver LOG_UPDATED invoking_log (head_object marker_store)]
              (fresh_tracker "f" "wf" "run1" no_store ∅) in
   invocations σ = (Returned None, σ))
  ∧ (let σ' := step fragment_sub
                 (Deliver LOG_COMPLETE invoking_log (head_object marker_store))
                 (fresh_tracker "f" "wf" "run1" no_store ∅) in
     ∃ l l' σ'',
       _invocations (self σ') = Some l
       ∧ sets σ' !! l = Some (list_to_set ["taskA" : str; "taskB" : str; "taskA" : str])
       ∧ invocations σ' = (Returned (Some l'), σ'')
       ∧ l' ≠ l
       ∧ sets σ'' !! l' = Some (list_to_set ["taskA" : str; "taskB" : str; "taskA" : str])
       ∧ self σ'' = self σ'
       ∧ ∀ x, fst (read_set l (snd (set_add l' x σ'')))
              = Returned (list_to_set ["taskA" : str; "taskB" : str; "taskA" : str])).
Proof.
  destruct (invocations_unknown_until_complete fragment_sub)
    as (_ & Hbefore & Hafter).
  split.
  - apply Hbefore; reflexivity.
  - apply Hafter. vm_compute. reflexivity.
Defined.

(** ** Terminal states *)

Section Terminal.
Variable re_sub_empty : str → str → option str.

Abbreviation status_of σ := (_status (self σ)).

Lemma run_app (acts1 acts2 : list action) (σ : State) :
  run re_sub_empty (acts1 ++ acts2) σ
  = run re_sub_empty acts2 (run re_sub_empty acts1 σ).
Proof. apply fold_left_app. Qed.

Lemma run_while_started_app (acts1 acts2 : list action) (σ : State) :
  run_while_started re_sub_empty (acts1 ++ acts2) σ
  = run_while_started re_sub_empty acts2
      (run_while_started re_sub_empty acts1 σ).
Proof. apply fold_left_app. Qed.

Lemma updates_then_complete_later (acts : list action) :
  forallb is_delivery acts = true →
  updates_then_complete (omap event_of acts) = true →
  forallb later_delivery acts = true.
Proof.
  induction acts as [|a acts IH]; [done|].
  destruct a as [[] logs head|st]; simpl; try done.
  intros Hd Hu. destruct acts as [|a' acts]; [done|].
  destruct a'; simpl in *; done.
Qed.

Lemma in_order_tail (a : action) (acts : list action) :
  forallb is_delivery (a :: acts) = true →
  in_order (omap event_of (a :: acts)) = true →
  forallb later_delivery acts = true.
Proof.
  intros Hd Ho. simpl in Hd. apply andb_true_iff in Hd as [Ha Hd].
  destruct a as [[] logs head|st]; try done; simpl in Ho.
  - by apply updates_then_complete_later.
  - apply (updates_then_complete_later (Deliver LOG_UPDATED logs head :: acts));
      simpl; [done|].
    by destruct (omap event_of acts).
  - destruct acts as [|a' acts]; [done|]. destruct a'; simpl in *; done.
Qed.

Lemma later_step_status (a : action) (σ : State) :
  later_delivery a = true →
  status_of (step re_sub_empty a σ) = status_of σ
  ∨ status_of (step re_sub_empty a σ) = FAILED
  ∨ status_of (step re_sub_empty a σ) = COMPLETED.
Proof.
  destruct a as [event logs head|st]; [|done]. intros Ha.
  assert (event ≠ LOG_CREATED) as Hev by (by destruct event).
  apply (on_log_event_status re_sub_empty event (observe logs head σ) Hev).
Qed.

Lemma later_run_status (acts : list action) (σ : State) :
  forallb later_delivery acts = true →
  status_of (run re_sub_empty acts σ) = status_of σ
  ∨ status_of (run re_sub_empty acts σ) = FAILED
  ∨ status_of (run re_sub_empty acts σ) = COMPLETED.
Proof.
  revert σ. induction acts as [|a acts IH]; intros σ Hacts; simpl; [by auto|].
  simpl in Hacts. apply andb_true_iff in Hacts as [Ha Hacts].
  destruct (IH (step re_sub_empty a σ) Hacts) as [-> | H]; [|by auto].
  by apply later_step_status.
Qed.

Lemma forallb_take {A} (p : A → bool) (l : list A) (n : nat) :
  forallb p l = true → forallb p (take n l) = true.
Proof.
  revert n. induction l as [|x l IH]; intros [|n] Hl; simpl; try done.
  simpl in Hl. apply andb_true_iff in Hl as [-> Hl]. by apply IH.
Qed.

Lemma forallb_drop {A} (p : A → bool) (l : list A) (n : nat) :
  forallb p l = true → forallb p (drop n l) = true.
Proof.
  revert n. induction l as [|x l IH]; intros [|n] Hl; simpl; try done.
  simpl in Hl. apply andb_true_iff in Hl as [_ Hl]. by apply IH.
Qed.

Lemma take_split {A} (l : list A) (n m : nat) :
  n ≤ m → take m l = take n l ++ drop n (take m l).
Proof.
  intros Hnm. rewrite <- (take_drop n (take m l)) at 1.
  by rewrite take_take, Nat.min_l.
Qed.

Lemma early_step_stopped (a : action) (σ : State) :
  early_delivery a = true → stopped_when_terminal σ →
  stopped_when_terminal (step_while_started re_sub_empty a σ).
Proof.
  destruct a as [[] logs head|st]; try done; intros _ Hσ; simpl.
  - destruct (started (_logger (self σ))); [|done]. intros Hfin. done.
  - destruct (started (_logger (self σ))) eqn:Hs; [|done].
    cbn [step _on_log_event]. rewrite handle_log_updated_run.
    case_bool_decide; [done|].
    destruct (object_exists _ _) as [[]|]; try done.
Qed.

Lemma early_run_stopped (acts : list action) (σ : State) :
  forallb early_delivery acts = true → stopped_when_terminal σ →
  stopped_when_terminal (run_while_started re_sub_empty acts σ).
Proof.
  revert σ. induction acts as [|a acts IH]; intros σ Hacts Hσ; [done|].
  simpl in Hacts. apply andb_true_iff in Hacts as [Ha Hacts].
  simpl. apply IH; [done|]. by apply early_step_stopped.
Qed.

Lemma stopped_run (acts : list action) (σ : State) :
  started (_logger (self σ)) = false → forallb is_delivery acts = true →
  run_while_started re_sub_empty acts σ = σ.
Proof.
  intros Hs. induction acts as [|a acts IH]; intros Hacts; [done|].
  simpl in Hacts. apply andb_true_iff in Hacts as [Ha Hacts].
  destruct a as [event logs head|st]; [|done]. simpl. rewrite Hs. by apply IH.
Qed.

Lemma updates_then_complete_front (acts : list action) :
  forallb is_delivery acts = true →
  updates_then_complete (omap event_of acts) = true →
  ∃ front last, acts = front ++ [last]
                ∧ forallb early_delivery front = true.
Proof.
  induction acts as [|a acts IH]; [done|].
  destruct a as [[] logs head|st]; simpl; try done.
  - intros Hd Hu. destruct (IH Hd Hu) as (front & last & -> & Hfront).
    exists (Deliver LOG_UPDATED logs head :: front), last. done.
  - intros Hd Hu. destruct acts as [|a' acts].
    + by exists [], (Deliver LOG_COMPLETE logs head).
    + destruct a'; simpl in *; done.
Qed.

Lemma in_order_front (acts : list action) :
  forallb is_delivery acts = true →
  in_order (omap event_of acts) = true →
  ∃ front last, acts = front ++ [last]
                ∧ forallb early_delivery front = true.
Proof.
  destruct acts as [|a acts]; [done|].
  destruct a as [[] logs head|st]; try done.
  - intros Hd Ho.
    destruct (updates_then_complete_front acts Hd Ho)
      as (front & last & -> & Hfront).
    by exists (Deliver LOG_CREATED logs head :: front), last.
  - apply updates_then_complete_front.
  - apply updates_then_complete_front.
Qed.

(** C6, as the code has it: in a run of deliveries in the source's order
    from PENDING, a status that is terminal stays terminal, every later
    event keeping it or setting FAILED or COMPLETED; and when nothing is
    delivered once the tracker has stopped its source, the tracker no longer
    changes at all. *)
Theorem terminal_status_stays_terminal (acts : list action) (σ : State)
    (n m : nat) :
  _status (self σ) = PENDING →
  forallb is_delivery acts = true →
  in_order (omap event_of acts) = true →
  n ≤ m →
  (has_final_state (_status (self (run re_sub_empty (take n acts) σ))) = true →
   has_final_state (_status (self (run re_sub_empty (take m acts) σ))) = true
   ∧ (_status (self (run re_sub_empty (take m acts) σ))
      = _status (self (run re_sub_empty (take n acts) σ))
      ∨ _status (self (run re_sub_empty (take m acts) σ)) = FAILED
      ∨ _status (self (run re_sub_empty (take m acts) σ)) = COMPLETED))
  ∧ (has_final_state
       (_status (self (run_while_started re_sub_empty (take n acts) σ))) = true →
     run_while_started re_sub_empty (take m acts) σ
     = run_while_started re_sub_empty (take n acts) σ).
Proof.
  intros Hpending Hd Ho Hnm. split.
  - intros Hfin. destruct acts as [|a rest]; [done|].
    destruct n as [|n]; [simpl in Hfin; by rewrite Hpending in Hfin|].
    destruct m as [|m]; [lia|]. apply le_S_n in Hnm.
    pose proof (in_order_tail a rest Hd Ho) as Hrest.
    rewrite (take_split (a :: rest) (S n) (S m)) by lia.
    rewrite run_app.
    assert (forallb later_delivery (drop (S n) (take (S m) (a :: rest))) = true)
      as Hlater.
    { simpl. by apply forallb_drop, forallb_take. }
    destruct (later_run_status _
                (run re_sub_empty (take (S n) (a :: rest)) σ) Hlater)
      as [Heq | [Heq | Heq]]; rewrite Heq; auto.
  - intros Hfin.
    destruct (in_order_front acts Hd Ho) as (front & last & -> & Hfront).
    destruct (decide (n ≤ length front)) as [Hn | Hn].
    + assert (take n (front ++ [last]) = take n front) as Htake.
      { by rewrite take_app_le. }
      rewrite (take_split (front ++ [last]) n m) by done.
      rewrite run_while_started_app. rewrite Htake in *.
      apply stopped_run; [|by apply forallb_drop, forallb_take].
      apply (early_run_stopped (take n front) σ);
        [by apply forallb_take | | done].
      intros Hσ. by rewrite Hpending in Hσ.
    + rewrite !take_ge; [done | |]; rewrite length_app; simpl; lia.
Qed.

End Terminal.

Lemma completed_then_failed_statuses re_sub_empty :
  let σ := fresh_tracker "f" "wf" "run1" marker_store ∅ in
  _status (self (run re_sub_empty (take 2 completed_then_failed) σ)) = COMPLETED
  ∧ _status (self (run re_sub_empty (take 4 completed_then_failed) σ)) = FAILED.
Proof.
  split; [reflexivity|].
  cbn [take completed_then_failed run fold_left step _on_log_event].
  rewrite handle_log_complete_run. reflexivity.
Qed.

(** C6 as stated fails: after LOG_UPDATED has set COMPLETED, the final
    LOG_COMPLETE finds an error line and sets FAILED. *)
Lemma terminal_status_overwritten :
  ¬ (∃ re_sub_empty : str → str → option str,
       ∀ (acts : list action) (σ : State) (n m : nat),
         _status (self σ) = PENDING →
         forallb is_delivery acts = true →
         in_order (omap event_of acts) = true →
         n ≤ m →
         has_final_state (_status (self (run re_sub_empty (take n acts) σ)))
         = true →
         _status (self (run re_sub_empty (take m acts) σ))
         = _status (self (run re_sub_empty (take n acts) σ))).
Proof.
  intros [re_sub_empty Hclaim].
  specialize (Hclaim completed_then_failed
                (fresh_tracker "f" "wf" "run1" marker_store ∅) 2 4).
  destruct (completed_then_failed_statuses re_sub_empty) as [H2 H4].
  rewrite H2, H4 in Hclaim.
  discriminate Hclaim; (reflexivity || lia).
Qed.

Lemma terminal_status_stays_terminal_witness :
  let σ := fresh_tracker "f" "wf" "run1" marker_store ∅ in
  (has_final_state
     (_status (self (run fragment_sub (take 4 completed_then_failed) σ))) = true
   ∧ (_status (self (run fragment_sub (take 4 completed_then_failed) σ))
      = _status (self (run fragment_sub (take 2 completed_then_failed) σ))
      ∨ _status (self (run fragment_sub (take 4 completed_then_failed) σ))
        = FAILED
      ∨ _status (self (run fragment_sub (take 4 completed_then_failed) σ))
        = COMPLETED))
  ∧ run_while_started fragment_sub (take 4 completed_then_failed) σ
    = run_while_started fragment_sub (take 2 completed_then_failed) σ.
Proof.
  intros σ.
  destruct (terminal_status_stays_terminal fragment_sub completed_then_failed
              σ 2 4) as [Hrun Hstopped];
    [reflexivity | reflexivity | reflexivity | lia |].
  split; [apply Hrun | apply Hstopped]; reflexivity.
Defined.

(** ** The invocation pattern *)

Lemma take_drop_while p (s : str) : take_while p s ++ drop_while p s = s.
Proof.
  induction s as [|c s IH]; simpl; [done|].
  destruct (p c); simpl; by rewrite ?IH.
Qed.

Lemma take_while_all p (s : str) : forallb p (take_while p s) = true.
Proof.
  induction s as [|c s IH]; simpl; [done|].
  destruct (p c) eqn:Hc; simpl; by rewrite ?Hc, ?IH.
Qed.

Lemma drop_while_stops p (s : str) : stops p (drop_while p s).
Proof.
  induction s as [|c s IH]; simpl; [done|].
  destruct (p c) eqn:Hc; simpl; done.
Qed.

Lemma take_while_app p (s t : str) :
  forallb p s = true → stops p t → take_while p (s ++ t) = s.
Proof.
  intros Hs Ht. induction s as [|c s IH]; simpl.
  - destruct t as [|c t]; simpl in *; [done | by rewrite Ht].
  - simpl in Hs. apply andb_true_iff in Hs as [-> Hs]. by rewrite IH.
Qed.

Lemma drop_while_app p (s t : str) :
  forallb p s = true → stops p t → drop_while p (s ++ t) = t.
Proof.
  intros Hs Ht. induction s as [|c s IH]; simpl.
  - destruct t as [|c t]; simpl in *; [done | by rewrite Ht].
  - simpl in Hs. apply andb_true_iff in Hs as [-> Hs]. by rewrite IH.
Qed.

Lemma consumed_app (s t : str) : consumed (s ++ t) t = s.
Proof.
  unfold consumed. rewrite length_app.
  replace (length s + length t - length t) with (length s) by lia.
  by rewrite take_app_length.
Qed.

(** A greedy repetition that nothing follows takes the longest run. *)
Lemma plus_loop_greedy x (b a : str) :
  plus_loop true x b a (λ _ a', Some a')
  = match a with
    | c :: rest =>
        if atom_ok x c then Some (drop_while (atom_ok x) rest) else None
    | [] => None
    end.
Proof.
  revert b. induction a as [|c rest IH]; intros b; simpl; [done|].
  destruct (atom_ok x c) eqn:Hc; [|done].
  rewrite IH. destruct rest as [|c' rest']; simpl; [done|].
  by destruct (atom_ok x c').
Qed.

Lemma match_at_invoked (b a : str) :
  match_at invoked_regex b a
  = if ends_with (rev invoked_marker) b then
      match a with
      | c1 :: c2 :: rest =>
          if letter c1 && name_char c2
          then Some (drop_while name_char rest) else None
      | _ => None
      end
    else None.
Proof.
  unfold match_at, invoked_regex. cbn [exec exec_item].
  destruct (ends_with _ b); [|done].
  destruct a as [|c1 a]; [done|]. cbn [atom_ok].
  destruct (letter c1); [|by destruct a].
  rewrite plus_loop_greedy. by destruct a.
Qed.

Lemma findall_from_skip r (b : str) c (rest : str) n :
  findall_from r b (c :: rest) (S n) = findall_from r (c :: b) rest n.
Proof. done. Qed.

Lemma findall_from_scan r (b a : str) :
  findall_from r b a 0
  = match match_at r b a with
    | Some a' =>
        consumed a a'
        :: match a with
           | [] => []
           | c :: rest =>
               findall_from r (c :: b) rest (length (consumed a a') - 1)
           end
    | None =>
        match a with
        | [] => []
        | c :: rest => findall_from r (c :: b) rest 0
        end
    end.
Proof. by destruct a. Qed.

Lemma match_at_invoked_Some (b a a' : str) :
  match_at invoked_regex b a = Some a' →
  recorded_at b (consumed a a') a'
  ∧ a = consumed a a' ++ a'.
Proof.
  rewrite match_at_invoked. destruct (ends_with _ b) eqn:Hb; [|done].
  destruct a as [|c1 [|c2 rest]]; try done.
  destruct (letter c1 && name_char c2) eqn:Hc; [|done]. intros [= <-].
  apply andb_true_iff in Hc as [Hc1 Hc2].
  assert (c1 :: c2 :: rest
          = (c1 :: c2 :: take_while name_char rest) ++ drop_while name_char rest)
    as Hsplit by (simpl; by rewrite take_drop_while).
  assert (consumed (c1 :: c2 :: rest) (drop_while name_char rest)
          = c1 :: c2 :: take_while name_char rest) as ->.
  { etransitivity; [|apply consumed_app]. by rewrite <- Hsplit. }
  split; [|done].
  split; [done|]. split; [|apply drop_while_stops].
  exists c1, c2, (take_while name_char rest). split; [done|]. split; [done|].
  simpl. by rewrite Hc2, take_while_all.
Qed.

Lemma findall_from_recorded (a b : str) (skip : nat) (tok : str) :
  tok ∈ findall_from invoked_regex b a skip →
  ∃ pre post, a = pre ++ tok ++ post ∧ recorded_at (rev pre ++ b) tok post.
Proof.
  revert b skip. induction a as [|c rest IH]; intros b skip Hin.
  - destruct skip; [|by apply elem_of_nil in Hin].
    rewrite findall_from_scan, match_at_invoked in Hin.
    destruct (ends_with _ b); by apply elem_of_nil in Hin.
  - assert (∀ n, tok ∈ findall_from invoked_regex (c :: b) rest n →
              ∃ pre post, c :: rest = pre ++ tok ++ post
                          ∧ recorded_at (rev pre ++ b) tok post) as Hrest.
    { intros n Hn. destruct (IH _ _ Hn) as (pre & post & -> & Hrec).
      exists (c :: pre), post. split; [done|].
      simpl. by rewrite <- app_assoc. }
    destruct skip as [|n]; [|by apply (Hrest n)].
    rewrite findall_from_scan in Hin.
    destruct (match_at invoked_regex b (c :: rest)) as [a'|] eqn:Hm;
      [|by apply (Hrest 0)].
    apply elem_of_cons in Hin as [-> | Hin]; [|by apply (Hrest _ Hin)].
    apply match_at_invoked_Some in Hm as [Hrec Hsplit].
    exists [], a'. done.
Qed.

Lemma findall_recorded (s tok : str) :
  tok ∈ findall invoked_regex s →
  ∃ pre post, s = pre ++ tok ++ post ∧ recorded_at (rev pre) tok post.
Proof.
  intros Hin. apply findall_from_recorded in Hin as (pre & post & -> & Hrec).
  exists pre, post. by rewrite app_nil_r in Hrec.
Qed.

Lemma marker_ends_with_space (b : str) :
  ends_with (rev invoked_marker) b = true → ∃ b', b = ord " " :: b'.
Proof.
  destruct b as [|c b']; [done|]. intros H.
  change (rev invoked_marker) with (Chr " " :: tl (rev invoked_marker)) in H.
  cbn [ends_with atom_ok] in H. apply andb_true_iff in H as [Hc _].
  apply char_eqb_eq in Hc as ->. by exists b'.
Qed.

Lemma letter_name_char (c : char) : letter c = true → name_char c = true.
Proof. unfold letter, name_char. intros ->. done. Qed.

Lemma findall_from_complete (pre b : str) (skip : nat) (tok post : str) :
  covered b (pre ++ tok ++ post) skip →
  recorded_at (rev pre ++ b) tok post →
  tok ∈ findall_from invoked_regex b (pre ++ tok ++ post) skip.
Proof.
  revert b skip. induction pre as [|c pre IH]; intros b skip Hcov Hrec.
  - simpl in *. destruct Hrec as (Hb & (c1 & c2 & rest & -> & Hc1 & Hrest) & Hpost).
    destruct skip as [|n].
    + rewrite findall_from_scan, match_at_invoked, Hb. simpl.
      simpl in Hrest. apply andb_true_iff in Hrest as [Hc2 Hrest].
      rewrite Hc1, Hc2. simpl. rewrite drop_while_app by done.
      pose proof (consumed_app (c1 :: c2 :: rest) post) as Hcons.
      simpl in Hcons. rewrite Hcons. apply elem_of_cons. by left.
    + destruct Hcov as [Hhead _].
      apply marker_ends_with_space in Hb as [b' ->]. done.
  - assert (recorded_at (rev pre ++ c :: b) tok post) as Hrec'.
    { simpl in Hrec. by rewrite <- app_assoc in Hrec. }
    change ((c :: pre) ++ tok ++ post) with (c :: (pre ++ tok ++ post)) in *.
    destruct skip as [|n].
    + rewrite findall_from_scan.
      destruct (match_at invoked_regex b (c :: pre ++ tok ++ post))
        as [a'|] eqn:Hm; [|by apply IH].
      apply elem_of_cons. right. apply IH; [|done].
      apply match_at_invoked_Some in Hm
        as [(_ & (c1 & c2 & r & Hcons & Hc1 & Hr) & _) Hsplit].
      rewrite Hcons in Hsplit |- *. simpl in Hsplit. injection Hsplit as -> Hsplit.
      rewrite Hsplit. simpl.
      split; [by apply letter_name_char|].
      simpl in Hr. apply andb_true_iff in Hr as [-> Hr]. simpl.
      by rewrite take_app_length.
    + rewrite findall_from_skip. apply IH; [|done].
      destruct Hcov as [_ Hall]. simpl in Hall.
      apply andb_true_iff in Hall as [Hc Hall].
      destruct n as [|n]; [done|]. done.
Qed.

(** The tokens [findall] returns are exactly the tokens that stand right
    after the marker text and are not continued by a name character. *)
Lemma findall_invoked (s tok : str) :
  tok ∈ findall invoked_regex s ↔
  ∃ pre post, s = pre ++ tok ++ post ∧ recorded_at (rev pre) tok post.
Proof.
  split; [apply findall_recorded|].
  intros (pre & post & -> & Hrec). apply findall_from_complete; [done|].
  by rewrite app_nil_r.
Qed.

(** ** Removing the workflow prefix *)

Lemma fragment_sub_agrees : agrees_on_fragment fragment_sub.
Proof. intros pattern r s Hr. unfold fragment_sub. by rewrite Hr. Qed.

Lemma after_prefix_Some (p s rest : str) :
  after_prefix p s = Some rest ↔ s = p ++ rest.
Proof.
  revert s. induction p as [|c p IH]; intros s; simpl.
  - split; [by intros [= ->] | by intros ->].
  - destruct s as [|d s]; [done|].
    destruct (char_eqb_spec c d) as [<-|Hne].
    + rewrite IH. split; [by intros -> | by intros [= ->]].
    + split; [done | intros [= ? ?]; done].
Qed.

Lemma parse_plain (p : str) : plain p = true → parse p = Some (ones (lits p)).
Proof.
  induction p as [|c p IH]; simpl; [done|]. intros Hp.
  apply andb_true_iff in Hp as [Hc Hp]. rewrite (IH Hp).
  unfold parse_item. apply negb_true_iff in Hc.
  destruct (char_eqb_spec c "^") as [->|_]; [done|].
  destruct (char_eqb_spec c ".") as [->|_]; [done|].
  by rewrite Hc.
Qed.

Lemma parse_workflow_pattern (w : str) :
  plain w = true →
  parse ("^" ++ w ++ "-") = Some (Bol :: ones (lits (w ++ "-"))).
Proof.
  intros Hw. change ("^" ++ w ++ "-") with (ord "^" :: (w ++ "-")).
  cbn [parse]. rewrite parse_plain; [done|].
  unfold plain in *. rewrite forallb_app, Hw. done.
Qed.

Lemma exec_lits {A} (p b a : str) (k : str → str → option A) :
  exec (ones (lits p)) b a k
  = match after_prefix p a with
    | Some rest => k (rev p ++ b) rest
    | None => None
    end.
Proof.
  revert b a. induction p as [|c p IH]; intros b a; simpl; [done|].
  destruct a as [|d a]; [done|]. unfold atom_ok.
  rewrite (char_eqb_sym d c). destruct (char_eqb_spec c d) as [<-|Hne]; [|done].
  rewrite IH. by rewrite <- app_assoc.
Qed.

Lemma match_at_anchored (r : regex) (b a : str) :
  b ≠ [] → match_at (Bol :: r) b a = None.
Proof. by destruct b. Qed.

Lemma sub_empty_from_anchored (r : regex) (b a : str) :
  b ≠ [] → sub_empty_from (Bol :: r) b a 0 = a.
Proof.
  revert b. induction a as [|c a IH]; intros b Hb.
  - simpl. by destruct b.
  - cbn [sub_empty_from]. rewrite match_at_anchored by done.
    by rewrite IH.
Qed.

Lemma sub_empty_from_skip (r : regex) (s1 s2 b : str) :
  sub_empty_from r b (s1 ++ s2) (length s1)
  = sub_empty_from r (rev s1 ++ b) s2 0.
Proof.
  revert b. induction s1 as [|c s1 IH]; intros b; [done|].
  simpl. rewrite IH. by rewrite <- app_assoc.
Qed.

(** On a pattern [^p] with [p] made of ordinary characters, [re.sub] removes
    the leading [p] and nothing else. *)
Lemma sub_empty_anchored_lits (p s : str) :
  p ≠ [] → sub_empty (Bol :: ones (lits p)) s = strip_prefix p s.
Proof.
  intros Hp. unfold sub_empty, strip_prefix.
  destruct s as [|c s].
  - cbn [sub_empty_from]. destruct (match_at _ [] []); by destruct p.
  - cbn [sub_empty_from]. unfold match_at at 1. cbn [exec exec_item].
    rewrite exec_lits.
    destruct (after_prefix p (c :: s)) as [rest|] eqn:Hpre; simpl.
    + apply after_prefix_Some in Hpre. rewrite Hpre, consumed_app.
      destruct p as [|c' p]; [done|]. simpl in Hpre. injection Hpre as -> ->.
      simpl. rewrite sub_empty_from_skip.
      apply sub_empty_from_anchored. by destruct (rev p).
    + by rewrite sub_empty_from_anchored.
Qed.

Lemma strip_prefix_plain re_sub_empty (w s : str) :
  agrees_on_fragment re_sub_empty → plain w = true →
  re_sub_empty ("^" ++ w ++ "-") s = Some (strip_prefix (w ++ "-") s).
Proof.
  intros Hre Hw. rewrite (Hre _ _ s (parse_workflow_pattern w Hw)).
  rewrite sub_empty_anchored_lits; [done|]. by destruct w.
Qed.

Lemma sub_all_plain re_sub_empty (w : str) (found : list str) :
  agrees_on_fragment re_sub_empty → plain w = true →
  sub_all re_sub_empty ("^" ++ w ++ "-") found
  = Returned (map (strip_prefix (w ++ "-")) found).
Proof.
  intros Hre Hw. induction found as [|tok found IH]; [done|].
  cbn [sub_all map]. by rewrite strip_prefix_plain, IH.
Qed.

(** ** Invocation extraction *)

(** For a workflow name of ordinary characters, the stored set holds exactly
    the tokens that follow the marker text, each without its leading
    [<workflow-name>-]. *)
Lemma extract_invocations_plain re_sub_empty (σ : State) logs head :
  agrees_on_fragment re_sub_empty →
  plain (workflow_name (self σ)) = true →
  ∃ l X,
    _invocations (self (step re_sub_empty (Deliver LOG_COMPLETE logs head) σ))
    = Some l
    ∧ sets (step re_sub_empty (Deliver LOG_COMPLETE logs head) σ) !! l = Some X
    ∧ ∀ name : str,
        name ∈ X ↔
        ∃ pre tok post : str,
          logs = pre ++ tok ++ post ∧ recorded_at (rev pre) tok post
          ∧ name = strip_prefix (workflow_name (self σ) ++ "-") tok.
Proof.
  intros Hre Hw.
  destruct (step_complete_stores re_sub_empty σ logs head _
              (sub_all_plain re_sub_empty _ (findall invoked_regex logs) Hre Hw))
    as (l & Hl & HX).
  exists l, (list_to_set
               (map (strip_prefix (workflow_name (self σ) ++ "-"))
                  (findall invoked_regex logs))).
  split; [done|]. split; [done|]. intros name.
  rewrite elem_of_list_to_set, list_elem_of_In, in_map_iff. split.
  - intros (tok & <- & Hin). apply list_elem_of_In, findall_invoked in Hin
      as (pre & post & -> & Hrec).
    by exists pre, tok, post.
  - intros (pre & tok & post & -> & Hrec & ->). exists tok. split; [done|].
    apply list_elem_of_In, findall_invoked. by exists pre, post.
Qed.

(** Workflow [wf], two lines for [wf-taskA] and one for [wf-taskB]: the
    stored set is {taskA, taskB}. *)
Lemma extract_invocations_example re_sub_empty (σ : State) head :
  agrees_on_fragment re_sub_empty →
  workflow_name (self σ) = "wf" →
  ∃ l,
    _invocations
      (self (step re_sub_empty (Deliver LOG_COMPLETE invoking_log head) σ))
    = Some l
    ∧ sets (step re_sub_empty (Deliver LOG_COMPLETE invoking_log head) σ) !! l
      = Some {[ "taskA" : str; "taskB" : str ]}.
Proof.
  intros Hre Hw.
  destruct (step_complete_stores re_sub_empty σ invoking_log head
              ["taskA" : str; "taskB" : str; "taskA" : str]) as (l & Hl & HX).
  { rewrite Hw, sub_all_plain by done. reflexivity. }
  exists l. split; [done|]. rewrite HX. f_equal; set_solver.
Qed.

(** C4, where the code departs from it: the workflow name is spliced into
    the pattern unescaped, so under workflow name [etl.v2] the token
    [etl-v2-load], which does not start with [etl.v2-], is stored as
    [load]. *)
Theorem extract_invocations_unescaped_name re_sub_empty (σ : State) head :
  agrees_on_fragment re_sub_empty →
  workflow_name (self σ) = "etl.v2" →
  findall invoked_regex wildcard_log = ["etl-v2-load" : str]
  ∧ strip_prefix "etl.v2-" "etl-v2-load" = "etl-v2-load"
  ∧ ∃ l,
      _invocations
        (self (step re_sub_empty (Deliver LOG_COMPLETE wildcard_log head) σ))
      = Some l
      ∧ sets (step re_sub_empty (Deliver LOG_COMPLETE wildcard_log head) σ) !! l
        = Some {[ "load" : str ]}.
Proof.
  intros Hre Hw. split; [reflexivity|]. split; [reflexivity|].
  destruct (step_complete_stores re_sub_empty σ wildcard_log head
              ["load" : str]) as (l & Hl & HX).
  { rewrite Hw. change (findall invoked_regex wildcard_log)
      with ["etl-v2-load" : str].
    cbn [sub_all].
    rewrite (Hre ("^" ++ "etl.v2" ++ "-")
               (Bol :: ones (lits "etl") ++ [One Dot] ++ ones (lits "v2-")))
      by reflexivity.
    reflexivity. }
  exists l. split; [done|]. rewrite HX. f_equal; set_solver.
Qed.

Lemma extract_invocations_unescaped_name_witness :
  ∃ l,
    _invocations
      (self (step fragment_sub
               (Deliver LOG_COMPLETE wildcard_log (head_object no_store))
               (fresh_tracker "f" "etl.v2" "run1" no_store ∅))) = Some l
    ∧ sets (step fragment_sub
              (Deliver LOG_COMPLETE wildcard_log (head_object no_store))
              (fresh_tracker "f" "etl.v2" "run1" no_store ∅)) !! l
      = Some {[ "load" : str ]}.
Proof.
  apply (extract_invocations_unescaped_name fragment_sub
           (fresh_tracker "f" "etl.v2" "run1" no_store ∅) (head_object no_store)).
  - exact fragment_sub_agrees.
  - reflexivity.
Defined.

(** C10 as stated fails: under workflow [wf] the logged name [wf-a] is
    stored as the one-character name [a]. *)
Lemma single_character_invocation :
  ¬ (∃ re_sub_empty : str → str → option str,
       agrees_on_fragment re_sub_empty
       ∧ ∀ (σ : State) logs head l (X : gset str) (name : str),
           _invocations
             (self (step re_sub_empty (Deliver LOG_COMPLETE logs head) σ))
           = Some l →
           sets (step re_sub_empty (Deliver LOG_COMPLETE logs head) σ) !! l
           = Some X →
           name ∈ X → length name ≠ 1).
Proof.
  intros (re_sub_empty & Hre & Hclaim).
  destruct (step_complete_stores re_sub_empty
              (fresh_tracker "f" "wf" "run1" no_store ∅) short_name_log
              (head_object no_store) ["a" : str]) as (l & Hl & HX).
  { change (workflow_name (self (fresh_tracker "f" "wf" "run1" no_store ∅)))
      with ("wf" : str).
    rewrite sub_all_plain by done. reflexivity. }
  apply (Hclaim _ _ _ l _ ("a" : str) Hl HX); [set_solver | reflexivity].
Qed.

(** C10, as the code has it: every token the invocation pattern matches is
    a letter followed by at least one letter, digit or hyphen, so it has at
    least two characters; a name of one character after the marker text is
    not matched. The stored names are the tokens after [re.sub]. *)
Theorem invocation_tokens_two_characters :
  (∀ (logs tok : str),
     tok ∈ findall invoked_regex logs →
     2 ≤ length tok
     ∧ ∃ c1 c2 rest, tok = c1 :: c2 :: rest ∧ letter c1 = true
                     ∧ forallb name_char (c2 :: rest) = true)
  ∧ (∀ (b : str) (c : char) (post : str),
       stops name_char post →
       match_at invoked_regex b (c :: post) = None
       ∧ findall_from invoked_regex b (c :: post) 0
         = findall_from invoked_regex (c :: b) post 0)
  ∧ (∀ re_sub_empty (σ : State) (logs : str) (names : list str),
       sub_all re_sub_empty ("^" ++ workflow_name (self σ) ++ "-")
         (findall invoked_regex logs) = Returned names →
       Forall2 (λ tok name,
                  re_sub_empty ("^" ++ workflow_name (self σ) ++ "-") tok
                  = Some name)
         (findall invoked_regex logs) names)
  ∧ findall invoked_regex
      (lines ["[scheduler.py] GitHub Action: Successfully invoked: a"]) = [].
Proof.
  split_and!.
  - intros logs tok Hin.
    apply findall_invoked in Hin
      as (pre & post & _ & _ & (c1 & c2 & rest & -> & Hc1 & Hrest) & _).
    split; [simpl; lia|]. by exists c1, c2, rest.
  - intros b c post Hpost.
    assert (match_at invoked_regex b (c :: post) = None) as Hnone.
    { rewrite match_at_invoked. destruct (ends_with _ b); [|done].
      destruct post as [|c2 post]; [done|]. simpl in Hpost.
      by rewrite Hpost, andb_false_r. }
    split; [done|]. by rewrite findall_from_scan, Hnone.
  - intros re_sub_empty σ logs names.
    generalize (findall invoked_regex logs) as found. intros found.
    revert names. induction found as [|tok found IH]; intros names; simpl.
    + intros [= <-]. constructor.
    + destruct (re_sub_empty _ tok) as [name|] eqn:Hname; [|done].
      destruct (sub_all _ _ found) as [names'|]; [|done].
      intros [= <-]. constructor; [done|]. by apply IH.
  - reflexivity.
Qed.

Lemma invocation_tokens_two_characters_witness :
  2 ≤ length ("wf-taskA" : str)
  ∧ ∃ c1 c2 rest, ("wf-taskA" : str) = c1 :: c2 :: rest ∧ letter c1 = true
                  ∧ forallb name_char (c2 :: rest) = true.
Proof.
  destruct invocation_tokens_two_characters as (Htok & _).
  apply (Htok invoking_log). compute_done.
Defined.

(** * Further properties *)

(** ** The status predicates together *)

(** X1: every status satisfies exactly one of the eight elementary
    predicates; [has_completed] implies [has_final_state]; the statuses
    that have not run are PENDING, INVOKED and NOT_INVOKED; the only final
    status that has not run is NOT_INVOKED and the only status that has run
    without being final is RUNNING. *)
Theorem status_predicates_partition (status : FunctionStatus) :
  length (filter (λ p : FunctionStatus → bool, p status = true)
            [pending; invoked; not_invoked; running; completed; failed;
             skipped; timed_out]) = 1
  ∧ implb (has_completed status) (has_final_state status) = true
  ∧ has_run status
    = negb (bool_decide (status ∈ [PENDING; INVOKED; NOT_INVOKED]))
  ∧ has_final_state status && negb (has_run status) = not_invoked status
  ∧ has_run status && negb (has_final_state status) = running status.
Proof. destruct status; split_and!; reflexivity. Qed.

(** X2: the members of each enumeration have pairwise different values, and
    the statuses that have not run are exactly those whose value is also a
    value of [InvocationStatus]. *)
Theorem status_values (status status' : FunctionStatus)
    (i i' : InvocationStatus.t) :
  (FunctionStatus_value status = FunctionStatus_value status' ↔ status = status')
  ∧ (InvocationStatus.value i = InvocationStatus.value i' ↔ i = i')
  ∧ (has_run status = false
     ↔ ∃ j, InvocationStatus.value j = FunctionStatus_value status).
Proof.
  split_and!.
  - split; [|by intros ->]. destruct status, status'; (done || discriminate).
  - split; [|by intros ->]. destruct i, i'; (done || discriminate).
  - split.
    + destruct status; try discriminate; intros _.
      * by exists InvocationStatus.PENDING.
      * by exists InvocationStatus.INVOKED.
      * by exists InvocationStatus.NOT_INVOKED.
    + intros [j Hj]. destruct status, j; (done || discriminate).
Qed.

(** ** [extract_function_name] and [get_s3_path] *)

Lemma extract_function_name_prefix (base rest : str) :
  ord "(" ∉ base → extract_function_name (base ++ "(" ++ rest) = base.
Proof.
  induction base as [|c base IH]; intros Hb; [done|].
  apply not_elem_of_cons in Hb as [Hc Hb]. simpl in *.
  destruct (char_eqb_spec c "("); [done|]. by rewrite IH.
Qed.

Lemma extract_function_name_plain (name : str) :
  ord "(" ∉ name → extract_function_name name = name.
Proof.
  induction name as [|c name IH]; intros Hn; [done|].
  apply not_elem_of_cons in Hn as [Hc Hn]. simpl.
  destruct (char_eqb_spec c "("); [done|]. by rewrite IH.
Qed.

Lemma extract_function_name_no_paren (name : str) :
  ord "(" ∉ extract_function_name name.
Proof.
  induction name as [|c name IH]; simpl; [apply not_elem_of_nil|].
  destruct (char_eqb_spec c "("); [apply not_elem_of_nil|].
  apply not_elem_of_cons. done.
Qed.

(** X3: [extract_function_name] returns the text before the first opening
    parenthesis: it drops the rank of [base(rank)], leaves a name without
    parenthesis as it is, never returns a parenthesis, is a prefix of its
    argument and is idempotent. *)
Theorem extract_function_name_spec (name : str) :
  (∀ base rank : str,
     name = base ++ "(" ++ rank ++ ")" → ord "(" ∉ base →
     extract_function_name name = base)
  ∧ (ord "(" ∉ name → extract_function_name name = name)
  ∧ (ord "(" ∉ extract_function_name name)
  ∧ (∃ rest, name = extract_function_name name ++ rest)
  ∧ extract_function_name (extract_function_name name)
    = extract_function_name name.
Proof.
  split_and!.
  - intros base rank -> Hb. by apply extract_function_name_prefix.
  - apply extract_function_name_plain.
  - apply extract_function_name_no_paren.
  - induction name as [|c name [rest IH]]; simpl; [by exists []|].
    destruct (char_eqb_spec c "("); [by eexists|].
    exists rest. simpl. by rewrite <- IH.
  - apply extract_function_name_plain, extract_function_name_no_paren.
Qed.

Lemma extract_function_name_spec_witness :
  extract_function_name "test_ranked(2)" = "test_ranked"
  ∧ extract_function_name "test_not_ranked" = "test_not_ranked".
Proof.
  split.
  - destruct (extract_function_name_spec "test_ranked(2)") as (Hrank & _).
    apply (Hrank "test_ranked" "2"); [reflexivity | compute_done].
  - destruct (extract_function_name_spec "test_not_ranked") as (_ & Hplain & _).
    apply Hplain. compute_done.
Defined.

(** X4: [get_s3_path] keeps the length of a key, maps a concatenation to the
    concatenation of the images, changes nothing in a key without backslash
    (and only then), returns no backslash and is idempotent. *)
Theorem get_s3_path_spec (key key' : str) :
  length (get_s3_path key) = length key
  ∧ get_s3_path (key ++ key') = get_s3_path key ++ get_s3_path key'
  ∧ (get_s3_path key = key ↔ ord "\" ∉ key)
  ∧ (ord "\" ∉ get_s3_path key)
  ∧ get_s3_path (get_s3_path key) = get_s3_path key.
Proof.
  assert (ord "\" ∉ get_s3_path key) as Hfree.
  { unfold get_s3_path. by apply replace_char_absent. }
  split_and!.
  - clear Hfree. unfold get_s3_path.
    induction key as [|c key IH]; simpl in *; [done|].
    destruct (char_eqb c "\"); simpl; by rewrite IH.
  - apply replace_app.
  - split; [intros Heq; by rewrite <- Heq | apply replace_absent].
  - done.
  - by apply replace_absent.
Qed.

(** ** [get_object] *)

(** X5: [get_object] returns a text exactly when the client returns the
    bytes and they decode; it raises nothing but [S3ClientError], whose
    message tells a missing object (code 404) from another client error and
    from any other failure, be it raised by the client or by the decoding of
    the bytes; [object_exists], in contrast, lets a failure that is not a
    [ClientError] through as it is. *)
Theorem get_object_wraps (decode : str → list Byte.byte → str + str)
    (client_get_object : str → str → get_response)
    (self : FaaSrS3Client) (key encoding : str) :
  (∀ text,
     get_object decode client_get_object self key encoding = Returned text
     ↔ ∃ body, client_get_object (_bucket_name self) key = GetReturns body
               ∧ decode encoding body = inl text)
  ∧ (∀ e, get_object decode client_get_object self key encoding = Raised e →
          ∃ message, e = S3ClientError message)
  ∧ (∀ code text,
       client_get_object (_bucket_name self) key = GetClientError code text →
       get_object decode client_get_object self key encoding
       = Raised (S3ClientError
                   ((if bool_decide (code = "404" :> str)
                     then "Object does not exist: "
                     else "boto3 client error getting object: ") ++ text)))
  ∧ (∀ what,
       client_get_object (_bucket_name self) key = GetRaises what →
       get_object decode client_get_object self key encoding
       = Raised (S3ClientError ("Unhandled error getting object: " ++ what)))
  ∧ (∀ body what,
       client_get_object (_bucket_name self) key = GetReturns body →
       decode encoding body = inr what →
       get_object decode client_get_object self key encoding
       = Raised (S3ClientError ("Unhandled error getting object: " ++ what)))
  ∧ (∀ what,
       head_object self (_bucket_name self) key = HeadRaises what →
       object_exists self key = Raised (OtherException what)).
Proof.
  unfold get_object, object_exists. split_and!.
  - intros text. destruct (client_get_object _ key) as [body|code t|what].
    + destruct (decode encoding body) as [t|w] eqn:Hd.
      * split; [intros [= ->]; eauto|]. intros (b & [= <-] & Hb). congruence.
      * split; [done|]. intros (b & [= <-] & Hb). congruence.
    + case_bool_decide; (split; [done | intros (b & ? & _); done]).
    + split; [done | intros (b & ? & _); done].
  - intros e. destruct (client_get_object _ key) as [body|code t|what].
    + destruct (decode encoding body); [done|]. intros [= <-]. eauto.
    + case_bool_decide; intros [= <-]; eauto.
    + intros [= <-]. eauto.
  - intros code text ->. by case_bool_decide.
  - by intros what ->.
  - by intros body what -> ->.
  - by intros what ->.
Qed.

Lemma get_object_wraps_witness :
  get_object (λ _ _, inr ("invalid start byte" : str))
    (λ _ _, GetClientError "404" "Not Found") no_store "input1.txt" "utf-8"
  = Raised (S3ClientError "Object does not exist: Not Found")
  ∧ get_object (λ _ _, inr ("invalid start byte" : str))
      (λ _ _, GetReturns []) no_store "input1.txt" "utf-8"
    = Raised (S3ClientError
                "Unhandled error getting object: invalid start byte").
Proof.
  split.
  - destruct (get_object_wraps (λ _ _, inr ("invalid start byte" : str))
                (λ _ _, GetClientError "404" "Not Found") no_store
                "input1.txt" "utf-8") as (_ & _ & Hclient & _).
    apply (Hclient "404" "Not Found"). reflexivity.
  - destruct (get_object_wraps (λ _ _, inr ("invalid start byte" : str))
                (λ _ _, GetReturns []) no_store
                "input1.txt" "utf-8") as (_ & _ & _ & _ & Hdecode & _).
    apply (Hdecode [] ("invalid start byte" : str)); reflexivity.
Defined.

(** ** Handling [LOG_COMPLETE] *)

(** X6: on [LOG_COMPLETE] a pattern error of [re.sub] ends the handler with
    the tracker untouched; otherwise the invocation set is stored first and
    then the failure pattern is tried before the marker: FAILED, else
    COMPLETED, else the status is kept, and an error of the store is passed
    on with the set already stored. The handler never stops or starts the
    log source. *)
Theorem handle_log_complete_spec (re_sub_empty : str → str → option str)
    (σ : State) :
  let f := self σ in
  let logs := logs_content (_logger f) in
  let found := sub_all re_sub_empty ("^" ++ workflow_name f ++ "-")
                 (findall invoked_regex logs) in
  (∀ e, found = Raised e →
        _handle_log_complete re_sub_empty σ = (Raised e, σ))
  ∧ (∀ names, found = Returned names →
       (is_Some (search failed_regex logs) →
        _handle_log_complete re_sub_empty σ
        = (Returned tt, forced FAILED (extracted names σ)))
       ∧ (search failed_regex logs = None →
          _handle_log_complete re_sub_empty σ
          = match object_exists (s3_client f) (done_key f) with
            | Returned true => (Returned tt, forced COMPLETED (extracted names σ))
            | Returned false => (Returned tt, extracted names σ)
            | Raised e => (Raised e, extracted names σ)
            end))
  ∧ _logger (self (snd (_handle_log_complete re_sub_empty σ))) = _logger f
  ∧ identity (self (snd (_handle_log_complete re_sub_empty σ))) = identity f.
Proof.
  intros f logs found. subst f logs found.
  rewrite handle_log_complete_run. split_and!.
  - by intros e ->.
  - intros names ->. split.
    + intros Hfail. by rewrite bool_decide_eq_true_2.
    + intros Hnone. rewrite Hnone, bool_decide_eq_false_2; [done|].
      by intros [? ?].
  - destruct (sub_all _ _ _); [|done]. case_bool_decide; [done|].
    by destruct (object_exists _ _) as [[]|].
  - destruct (sub_all _ _ _); [|done]. case_bool_decide; [done|].
    by destruct (object_exists _ _) as [[]|].
Qed.

Lemma handle_log_complete_spec_witness :
  _handle_log_complete fragment_sub
    (watching (lines ["[3.5] [INFO] working"]) forbidden_store)
  = (Raised (S3ClientError "Error checking object existence: Forbidden"),
     extracted [] (watching (lines ["[3.5] [INFO] working"]) forbidden_store)).
Proof.
  destruct (handle_log_complete_spec fragment_sub
              (watching (lines ["[3.5] [INFO] working"]) forbidden_store))
    as (_ & Hstored & _).
  destruct (Hstored []) as [_ Hmarker]; [reflexivity|].
  rewrite Hmarker; reflexivity.
Defined.

(** ** What log events can do to a tracker *)

Lemma step_identity re_sub_empty (a : action) (σ : State) :
  identity (self (step re_sub_empty a σ)) = identity (self σ).
Proof.
  destruct a as [[] logs head|st]; simpl; try done.
  - rewrite handle_log_updated_run. case_bool_decide; [done|].
    by destruct (object_exists _ _) as [[]|].
  - rewrite handle_log_complete_run. destruct (sub_all _ _ _); [|done].
    case_bool_decide; [done|]. by destruct (object_exists _ _) as [[]|].
Qed.

(** X7: whatever is delivered or forced, in whatever order, the tracker
    keeps its function name, workflow name, run folder and bucket, and so
    its marker key. *)
Theorem run_keeps_identity (re_sub_empty : str → str → option str)
    (acts : list action) (σ : State) :
  identity (self (run re_sub_empty acts σ)) = identity (self σ)
  ∧ done_key (self (run re_sub_empty acts σ)) = done_key (self σ).
Proof.
  assert (identity (self (run re_sub_empty acts σ)) = identity (self σ)) as Hid.
  { revert σ. induction acts as [|a acts IH]; intros σ; [done|].
    simpl. rewrite IH. apply step_identity. }
  split; [done|]. unfold identity in Hid. injection Hid as Hn _ Hf _.
  unfold done_key. by rewrite Hn, Hf.
Qed.

Lemma step_log_driven re_sub_empty (a : action) (σ : State) :
  is_delivery a = true →
  _status (self (step re_sub_empty a σ)) = _status (self σ)
  ∨ _status (self (step re_sub_empty a σ)) ∈ [RUNNING; FAILED; COMPLETED].
Proof.
  destruct a as [event logs head|st]; [intros _|done].
  destruct event.
  - right. simpl. set_solver.
  - destruct (on_log_event_status re_sub_empty LOG_UPDATED
                (observe logs head σ)) as [H|[H|H]]; [done| | |].
    + by left.
    + right. cbn [step]. rewrite H. set_solver.
    + right. cbn [step]. rewrite H. set_solver.
  - destruct (on_log_event_status re_sub_empty LOG_COMPLETE
                (observe logs head σ)) as [H|[H|H]]; [done| | |].
    + by left.
    + right. cbn [step]. rewrite H. set_solver.
    + right. cbn [step]. rewrite H. set_solver.
Qed.

(** X8: log events, in any number and order, only ever set RUNNING, FAILED
    or COMPLETED: a tracker whose status is PENDING, RUNNING, FAILED or
    COMPLETED never reaches INVOKED, NOT_INVOKED, SKIPPED or TIMEOUT without
    an explicit override. *)
Theorem log_events_reach (re_sub_empty : str → str → option str)
    (acts : list action) (σ : State) :
  forallb is_delivery acts = true →
  log_driven (_status (self σ)) = true →
  log_driven (_status (self (run re_sub_empty acts σ))) = true.
Proof.
  revert σ. induction acts as [|a acts IH]; intros σ Hacts Hσ; [done|].
  simpl in Hacts. apply andb_true_iff in Hacts as [Ha Hacts].
  simpl. apply IH; [done|].
  destruct (step_log_driven re_sub_empty a σ Ha) as [-> | Hin]; [done|].
  rewrite !elem_of_cons, elem_of_nil in Hin.
  destruct Hin as [-> | [-> | [-> | []]]]; reflexivity.
Qed.

Lemma log_events_reach_witness :
  log_driven
    (_status (self (run fragment_sub
                      (completed_then_failed
                       ++ [Deliver LOG_CREATED [] (head_object no_store)])
                      (fresh_tracker "f" "wf" "run1" marker_store ∅)))) = true.
Proof.
  apply (log_events_reach fragment_sub); reflexivity.
Defined.

Lemma handle_log_updated_twice (τ : State) :
  snd (_handle_log_updated (snd (_handle_log_updated τ)))
  = snd (_handle_log_updated τ).
Proof.
  rewrite (handle_log_updated_run τ).
  destruct (bool_decide (is_Some (search failed_regex
                                    (logs_content (_logger (self τ))))))
    eqn:Hfail.
  - cbn [snd]. rewrite handle_log_updated_run.
    change (logs_content (_logger (self (settled FAILED τ))))
      with (logs_content (_logger (self τ))).
    by rewrite Hfail.
  - destruct (object_exists (s3_client (self τ)) (done_key (self τ)))
      as [[]|e] eqn:Hdone; cbn [snd]; rewrite handle_log_updated_run.
    + change (logs_content (_logger (self (settled COMPLETED τ))))
        with (logs_content (_logger (self τ))).
      change (s3_client (self (settled COMPLETED τ))) with (s3_client (self τ)).
      change (done_key (self (settled COMPLETED τ))) with (done_key (self τ)).
      by rewrite Hfail, Hdone.
    + by rewrite Hfail, Hdone.
    + by rewrite Hfail, Hdone.
Qed.

(** X9: handling the same [LOG_UPDATED] again, with the same log text and
    the same answers of the store, changes nothing more: the second
    delivery leaves the state the first one produced. *)
Theorem log_updated_idempotent (re_sub_empty : str → str → option str)
    (logs : str) (head : str → str → head_response) (σ : State) :
  run re_sub_empty [Deliver LOG_UPDATED logs head;
                    Deliver LOG_UPDATED logs head] σ
  = run re_sub_empty [Deliver LOG_UPDATED logs head] σ.
Proof.
  cbn [run fold_left step _on_log_event].
  set (τ := observe logs head σ).
  assert (observe logs head (snd (_handle_log_updated τ))
          = snd (_handle_log_updated τ)) as ->.
  { subst τ. rewrite handle_log_updated_run. case_bool_decide; [done|].
    by destruct (object_exists _ _) as [[]|]. }
  apply handle_log_updated_twice.
Qed.

(** ** The log source and the status *)




(** ** Failure lines *)

Lemma failure_contained (part logs : str) :
  contains part logs → is_Some (search failed_regex part) →
  is_Some (search failed_regex logs).
Proof.
  intros (pre & post & ->) Hpart.
  apply search_is_Some in Hpart as (p & mid & q & -> & Hm).
  apply search_is_Some. exists (pre ++ p), mid, (q ++ post).
  split; [by rewrite <- !app_assoc|].
  apply matches_failed_regex. by apply matches_failed_regex in Hm.
Qed.

Lemma failing_step re_sub_empty (a : action) (σ : State) :
  later_delivery a = true →
  is_Some (search failed_regex (logs_of a)) →
  _status (self σ) = FAILED →
  _status (self (step re_sub_empty a σ)) = FAILED.
Proof.
  destruct a as [[] logs head|st]; try done; intros _ Hfail Hσ;
    cbn [step _on_log_event logs_of] in *.
  - rewrite handle_log_updated_run.
    cbn [observe self _logger logs_content].
    by rewrite bool_decide_eq_true_2.
  - rewrite handle_log_complete_run.
    destruct (sub_all _ _ _); [|done].
    cbn [observe self _logger logs_content].
    by rewrite bool_decide_eq_true_2.
Qed.

(** X11: a failure line is found wherever it stands, so text added before
    or after it does not hide it; hence, once FAILED was set for a log
    text, every later LOG_UPDATED or LOG_COMPLETE whose log text still
    contains that text keeps FAILED, whatever the store answers. *)
Theorem failed_is_kept (re_sub_empty : str → str → option str)
    (seen : str) (acts : list action) (σ : State) :
  is_Some (search failed_regex seen) →
  _status (self σ) = FAILED →
  forallb later_delivery acts = true →
  Forall (λ a, contains seen (logs_of a)) acts →
  _status (self (run re_sub_empty acts σ)) = FAILED.
Proof.
  intros Hseen Hσ Hacts Hlogs. revert σ Hσ.
  induction Hlogs as [|a acts Ha _ IH]; intros σ Hσ; [done|].
  simpl in Hacts. apply andb_true_iff in Hacts as [Hlater Hacts].
  simpl. apply IH; [done|]. apply failing_step; [done| |done].
  by apply (failure_contained seen).
Qed.

Lemma failed_is_kept_witness :
  _status
    (self (run fragment_sub
             [Deliver LOG_UPDATED
                (lines ["[0.2] [ERROR] boom"; "[0.3] [INFO] cleanup"])
                (head_object marker_store);
              Deliver LOG_COMPLETE
                (lines ["[0.2] [ERROR] boom"; "[0.3] [INFO] cleanup";
                        "[0.4] [INFO] done"])
                (head_object marker_store)]
             (forced FAILED (watching (lines ["[0.2] [ERROR] boom"]) no_store))))
  = FAILED.
Proof.
  apply (failed_is_kept fragment_sub (lines ["[0.2] [ERROR] boom"])).
  - compute_done.
  - reflexivity.
  - reflexivity.
  - repeat constructor.
    + by exists [], (lines ["[0.3] [INFO] cleanup"]).
    + by exists [], (lines ["[0.3] [INFO] cleanup"; "[0.4] [INFO] done"]).
Defined.

(** ** The live checks and the cached status *)

Lemma function_failed_run (τ : State) :
  function_failed τ
  = (Returned (bool_decide (is_Some (search failed_regex
                                       (logs_content (_logger (self τ)))))),
     τ).
Proof. done. Qed.

Lemma function_complete_run (τ : State) :
  function_complete τ
  = (object_exists (s3_client (self τ)) (done_key (self τ)), τ).
Proof.
  unfold function_complete. run_method. by destruct (object_exists _ _).
Qed.

(** X12: [status], [function_failed] and [function_complete] never change
    the tracker, also when the store raises; and right after a
    [LOG_UPDATED] that returned, the cached status agrees with the live
    checks: a failing log means FAILED, otherwise a present marker means
    COMPLETED, otherwise the update changed nothing. *)
Theorem checks_agree_after_update (σ : State) :
  let σ' := snd (_handle_log_updated σ) in
  (snd (status σ) = σ ∧ snd (function_failed σ) = σ
   ∧ snd (function_complete σ) = σ)
  ∧ (fst (_handle_log_updated σ) = Returned tt →
     (fst (function_failed σ') = Returned true → _status (self σ') = FAILED)
     ∧ (fst (function_failed σ') = Returned false →
        fst (function_complete σ') = Returned true →
        _status (self σ') = COMPLETED)
     ∧ (fst (function_failed σ') = Returned false →
        fst (function_complete σ') = Returned false → σ' = σ)).
Proof.
  intros σ'. split.
  - by rewrite function_failed_run, function_complete_run.
  - subst σ'. rewrite handle_log_updated_run.
    destruct (bool_decide (is_Some (search failed_regex
                                      (logs_content (_logger (self σ))))))
      eqn:Hfail.
    + intros _. cbn [snd]. rewrite function_failed_run.
      change (logs_content (_logger (self (settled FAILED σ))))
        with (logs_content (_logger (self σ))).
      rewrite Hfail. cbn [fst]. split_and!; done.
    + destruct (object_exists (s3_client (self σ)) (done_key (self σ)))
        as [[]|e] eqn:Hdone; cbn [fst snd]; [| |done]; intros _;
        rewrite function_failed_run, function_complete_run.
      * change (logs_content (_logger (self (settled COMPLETED σ))))
          with (logs_content (_logger (self σ))).
        change (s3_client (self (settled COMPLETED σ))) with (s3_client (self σ)).
        change (done_key (self (settled COMPLETED σ))) with (done_key (self σ)).
        rewrite Hfail, Hdone. cbn [fst]. split_and!; done.
      * rewrite Hfail, Hdone. cbn [fst]. split_and!; done.
Qed.

Lemma checks_agree_after_update_witness :
  _status (self (snd (_handle_log_updated
     (watching (lines ["[3.5] [INFO] done"]) marker_store)))) = COMPLETED.
Proof.
  destruct (checks_agree_after_update
              (watching (lines ["[3.5] [INFO] done"]) marker_store))
    as (_ & Hagree).
  destruct Hagree as (_ & Hmarker & _); [reflexivity|].
  apply Hmarker; reflexivity.
Defined.

(** ** Workflow names that are no patterns *)



(** ** Invocation lines *)

Lemma ends_with_lits (w : str) (rest : list atom) (b : str) :
  ends_with (lits w ++ rest) b = true
  ↔ ∃ b', b = w ++ b' ∧ ends_with rest b' = true.
Proof.
  revert b. induction w as [|c w IH]; intros b; simpl.
  - split; [eauto | by intros (b' & -> & ?)].
  - destruct b as [|d b]; [split; [done | by intros (? & ? & _)]|].
    rewrite andb_true_iff, IH, char_eqb_eq. split.
    + intros (-> & b' & -> & Hrest). eauto.
    + intros (b' & [= -> ->] & Hrest). eauto.
Qed.

Lemma ends_with_marker (b : str) :
  ends_with (rev invoked_marker) b = true
  ↔ ∃ c b', c ≠ newline ∧ b = rev (marker_text c) ++ b'.
Proof.
  change (rev invoked_marker)
    with (lits (rev ("py] GitHub Action: Successfully invoked: " : str))
          ++ Dot :: lits (rev ("[scheduler" : str)) ++ []).
  rewrite ends_with_lits. split.
  - intros (b1 & -> & Hdot). destruct b1 as [|c b1]; [done|].
    cbn [ends_with atom_ok] in Hdot. apply andb_true_iff in Hdot as [Hc Hrest].
    apply ends_with_lits in Hrest as (b2 & -> & _).
    exists c, b2. split.
    + intros ->. done.
    + unfold marker_text. rewrite !rev_app_distr, <- !app_assoc. done.
  - intros (c & b' & Hc & ->).
    exists (c :: rev ("[scheduler" : str) ++ b'). split.
    + unfold marker_text. rewrite !rev_app_distr, <- !app_assoc. done.
    + cbn [ends_with atom_ok]. apply andb_true_iff. split.
      * apply negb_true_iff. by apply char_eqb_neq.
      * apply ends_with_lits. by exists b'.
Qed.

(** X14: the tokens the invocation pattern finds are exactly the tokens
    that stand, anywhere in the text, right after the marker text and are
    followed by the end of the text or by a character that is no letter,
    digit or hyphen; the unescaped dot of the marker stands for any
    character but a newline. *)
Theorem invocation_lines (s tok : str) :
  tok ∈ findall invoked_regex s
  ↔ ∃ (pre : str) (c : char) (post : str),
      s = pre ++ marker_text c ++ tok ++ post
      ∧ c ≠ newline ∧ token tok ∧ stops name_char post.
Proof.
  rewrite findall_invoked. split.
  - intros (pre' & post & -> & Hmarker & Htok & Hpost).
    apply ends_with_marker in Hmarker as (c & b' & Hc & Hrev).
    exists (rev b'), c, post. split; [|done].
    rewrite <- (rev_involutive pre'), Hrev, rev_app_distr, rev_involutive.
    by rewrite <- !app_assoc.
  - intros (pre & c & post & -> & Hc & Htok & Hpost).
    exists (pre ++ marker_text c), post. split; [by rewrite <- !app_assoc|].
    split; [|done]. apply ends_with_marker. exists c, (rev pre).
    split; [done|]. by rewrite rev_app_distr.
Qed.

(** ** The size of the stored set *)

Lemma sub_all_length re_sub_empty (pattern : str) (found names : list str) :
  sub_all re_sub_empty pattern found = Returned names →
  length names = length found.
Proof.
  revert names. induction found as [|tok found IH]; intros names; simpl.
  - by intros [= <-].
  - destruct (re_sub_empty pattern tok); [|done].
    destruct (sub_all _ _ found) as [names'|]; [|done].
    intros [= <-]. simpl. by rewrite (IH names').
Qed.

Lemma size_list_to_set_le (names : list str) :
  size (list_to_set names : gset str) ≤ length names.
Proof.
  induction names as [|x names IH].
  - by rewrite list_to_set_nil, size_empty.
  - rewrite list_to_set_cons, size_union_alt, size_singleton. simpl.
    assert (size (list_to_set names ∖ {[x]} : gset str)
            ≤ size (list_to_set names : gset str)).
    { apply subseteq_size. by apply subseteq_difference_l. }
    lia.
Qed.

(** X15: when [LOG_COMPLETE] stores a set, it has at most as many names as
    the log has invocation tokens, and it is empty exactly when the log has
    none. *)
Theorem stored_set_size (re_sub_empty : str → str → option str)
    (σ : State) (logs : str) (head : str → str → head_response)
    (names : list str) :
  sub_all re_sub_empty ("^" ++ workflow_name (self σ) ++ "-")
    (findall invoked_regex logs) = Returned names →
  ∃ l X,
    _invocations (self (step re_sub_empty (Deliver LOG_COMPLETE logs head) σ))
    = Some l
    ∧ sets (step re_sub_empty (Deliver LOG_COMPLETE logs head) σ) !! l = Some X
    ∧ size X ≤ length (findall invoked_regex logs)
    ∧ (X = ∅ ↔ findall invoked_regex logs = []).
Proof.
  intros Hsub.
  destruct (step_complete_stores re_sub_empty σ logs head names Hsub)
    as (l & Hl & HX).
  apply sub_all_length in Hsub.
  exists l, (list_to_set names). split; [done|]. split; [done|]. split.
  - rewrite <- Hsub. apply size_list_to_set_le.
  - destruct names as [|x names], (findall invoked_regex logs) as [|tok found];
      try done.
    split; [|done]. intros Hempty. exfalso.
    assert (x ∈ (list_to_set (x :: names) : gset str)) as Hx by set_solver.
    rewrite Hempty in Hx. set_solver.
Qed.

Lemma stored_set_size_witness :
  ∃ l X,
    _invocations
      (self (step fragment_sub
               (Deliver LOG_COMPLETE invoking_log (head_object no_store))
               (fresh_tracker "f" "wf" "run1" no_store ∅))) = Some l
    ∧ sets (step fragment_sub
              (Deliver LOG_COMPLETE invoking_log (head_object no_store))
              (fresh_tracker "f" "wf" "run1" no_store ∅)) !! l = Some X
    ∧ size X ≤ length (findall invoked_regex invoking_log)
    ∧ (X = ∅ ↔ findall invoked_regex invoking_log = []).
Proof.
  apply (stored_set_size fragment_sub
           (fresh_tracker "f" "wf" "run1" no_store ∅) invoking_log
           (head_object no_store)
           ["taskA" : str; "taskB" : str; "taskA" : str]).
  vm_compute. reflexivity.
Defined.

(** ** Names stored for an ordinary workflow name *)

(** X16: for a workflow name without special characters of [re], the set
    stored by [LOG_COMPLETE] holds exactly, for every token that stands
    after the marker text, the token without its leading
    [<workflow-name>-], or the token itself when it does not start with
    it. *)
Theorem stored_names_plain (re_sub_empty : str → str → option str)
    (σ : State) (logs : str) (head : str → str → head_response) :
  agrees_on_fragment re_sub_empty →
  plain (workflow_name (self σ)) = true →
  ∃ l X,
    _invocations (self (step re_sub_empty (Deliver LOG_COMPLETE logs head) σ))
    = Some l
    ∧ sets (step re_sub_empty (Deliver LOG_COMPLETE logs head) σ) !! l = Some X
    ∧ ∀ name : str,
        name ∈ X ↔
        ∃ (pre : str) (c : char) (tok post : str),
          logs = pre ++ marker_text c ++ tok ++ post
          ∧ c ≠ newline ∧ token tok ∧ stops name_char post
          ∧ (tok = workflow_name (self σ) ++ "-" ++ name
             ∨ name = tok
               ∧ ¬ ∃ rest, tok = workflow_name (self σ) ++ "-" ++ rest).
Proof.
  intros Hre Hw.
  destruct (step_complete_stores re_sub_empty σ logs head _
              (sub_all_plain re_sub_empty _ (findall invoked_regex logs) Hre Hw))
    as (l & Hl & HX).
  eexists l, _. split; [done|]. split; [done|]. intros name.
  assert (∀ tok,
            name = strip_prefix (workflow_name (self σ) ++ "-") tok
            ↔ tok = workflow_name (self σ) ++ "-" ++ name
              ∨ name = tok
                ∧ ¬ ∃ rest, tok = workflow_name (self σ) ++ "-" ++ rest)
    as Hstrip.
  { intros tok. unfold strip_prefix.
    destruct (after_prefix (workflow_name (self σ) ++ "-") tok) as [rest|]
      eqn:Hpre; simpl.
    - apply after_prefix_Some in Hpre. rewrite <- app_assoc in Hpre. split.
      + intros ->. by left.
      + intros [Htok | [_ Hno]].
        * rewrite Htok in Hpre. apply app_inv_head in Hpre.
          simpl in Hpre. by injection Hpre as ->.
        * destruct Hno. by exists rest.
    - split.
      + intros ->. right. split; [done|]. intros [rest Hrest].
        assert (after_prefix (workflow_name (self σ) ++ "-") tok = Some rest)
          as Hsome; [|congruence].
        apply after_prefix_Some. by rewrite <- app_assoc.
      + intros [Htok | [Heq _]]; [|done].
        assert (after_prefix (workflow_name (self σ) ++ "-") tok = Some name)
          as Hsome; [|congruence].
        apply after_prefix_Some. by rewrite <- app_assoc. }
  rewrite elem_of_list_to_set, list_elem_of_In, in_map_iff. split.
  - intros (tok & <- & Hin).
    apply list_elem_of_In, findall_invoked in Hin
      as (pre' & post & -> & Hmarker & Htok & Hpost).
    apply ends_with_marker in Hmarker as (c & b' & Hc & Hrev).
    exists (rev b'), c, tok, post. split_and!; try done.
    + rewrite <- (rev_involutive pre'), Hrev, rev_app_distr, rev_involutive.
      by rewrite <- !app_assoc.
    + by apply Hstrip.
  - intros (pre & c & tok & post & -> & Hc & Htok & Hpost & Hname).
    exists tok. split; [symmetry; by apply Hstrip|].
    apply list_elem_of_In, findall_invoked.
    exists (pre ++ marker_text c), post. split; [by rewrite <- !app_assoc|].
    split; [|done]. apply ends_with_marker. exists c, (rev pre).
    split; [done|]. by rewrite rev_app_distr.
Qed.

Lemma stored_names_plain_witness :
  ∃ l X,
    _invocations
      (self (step fragment_sub
               (Deliver LOG_COMPLETE invoking_log (head_object no_store))
               (fresh_tracker "f" "wf" "run1" no_store ∅))) = Some l
    ∧ sets (step fragment_sub
              (Deliver LOG_COMPLETE invoking_log (head_object no_store))
              (fresh_tracker "f" "wf" "run1" no_store ∅)) !! l = Some X
    ∧ ∀ name : str,
        name ∈ X ↔
        ∃ (pre : str) (c : char) (tok post : str),
          invoking_log = pre ++ marker_text c ++ tok ++ post
          ∧ c ≠ newline ∧ token tok ∧ stops name_char post
          ∧ (tok = "wf" ++ "-" ++ name
             ∨ name = tok ∧ ¬ ∃ rest, tok = "wf" ++ "-" ++ rest).
Proof.
  apply (stored_names_plain fragment_sub
           (fresh_tracker "f" "wf" "run1" no_store ∅) invoking_log
           (head_object no_store)).
  - exact fragment_sub_agrees.
  - reflexivity.
Defined.

(** ** Keeping COMPLETED *)

Lemma completed_step re_sub_empty (a : action) (σ : State) :
  later_delivery a = true →
  search failed_regex (logs_of a) = None →
  answers_of a (_bucket_name (s3_client (self σ))) (done_key (self σ))
  = HeadReturns →
  _status (self σ) = COMPLETED →
  _status (self (step re_sub_empty a σ)) = COMPLETED.
Proof.
  destruct a as [[] logs head|st]; try done; intros _ Hlogs Hhead Hσ;
    cbn [step _on_log_event logs_of answers_of] in *.
  - rewrite handle_log_updated_run.
    cbn [observe self _logger logs_content s3_client].
    rewrite Hlogs, bool_decide_eq_false_2 by (by intros [? ?]).
    unfold object_exists. cbn [head_object _bucket_name].
    change (done_key _) with (done_key (self σ)). by rewrite Hhead.
  - rewrite handle_log_complete_run.
    destruct (sub_all _ _ _); [|done].
    cbn [observe self _logger logs_content s3_client].
    rewrite Hlogs, bool_decide_eq_false_2 by (by intros [? ?]).
    unfold object_exists. cbn [head_object _bucket_name].
    change (done_key _) with (done_key (self σ)). by rewrite Hhead.
Qed.

(** X17: once COMPLETED, the status is kept by every later LOG_UPDATED or
    LOG_COMPLETE at which the marker object is still there and the log text
    shows no failure line, also when [re.sub] raises. *)
Theorem completed_is_kept (re_sub_empty : str → str → option str)
    (acts : list action) (σ : State) :
  _status (self σ) = COMPLETED →
  forallb later_delivery acts = true →
  Forall (λ a, search failed_regex (logs_of a) = None
               ∧ answers_of a (_bucket_name (s3_client (self σ)))
                   (done_key (self σ)) = HeadReturns) acts →
  _status (self (run re_sub_empty acts σ)) = COMPLETED.
Proof.
  intros Hσ Hacts Hall.
  remember (_bucket_name (s3_client (self σ))) as bucket eqn:Hbucket.
  remember (done_key (self σ)) as key eqn:Hkey.
  revert σ Hσ Hbucket Hkey.
  induction Hall as [|a acts [Hlogs Hhead] _ IH]; intros σ Hσ -> ->; [done|].
  simpl in Hacts. apply andb_true_iff in Hacts as [Hlater Hacts].
  simpl. apply IH; [done | by apply completed_step | |].
  - pose proof (step_identity re_sub_empty a σ) as Hid.
    unfold identity in Hid. by injection Hid as _ _ _ ->.
  - pose proof (step_identity re_sub_empty a σ) as Hid.
    unfold identity in Hid. injection Hid as Hn _ Hf _.
    unfold done_key. by rewrite Hn, Hf.
Qed.

Lemma completed_is_kept_witness :
  _status
    (self (run fragment_sub
             [Deliver LOG_UPDATED (lines ["[0.1] [INFO] start"])
                (head_object marker_store);
              Deliver LOG_COMPLETE invoking_log (head_object marker_store)]
             (forced COMPLETED
                (watching (lines ["[0.1] [INFO] start"]) marker_store))))
  = COMPLETED.
Proof.
  apply (completed_is_kept fragment_sub).
  - reflexivity.
  - reflexivity.
  - repeat constructor.
Defined.

(** ** Marker keys of different names *)

(** X18: the marker key does not tell a ranked name from a dotted one: in
    the same run folder the names [base(rank)] and [base.rank] have the same
    marker key, and a closing parenthesis anywhere in a name is dropped. *)
Theorem done_key_collisions (f g : FaaSrFunction) (base rank folder : str) :
  ord "(" ∉ (base ++ rank) → ord ")" ∉ (base ++ rank) →
  named (base ++ "(" ++ rank ++ ")") folder f →
  (named (base ++ "." ++ rank) folder g → done_key f = done_key g)
  ∧ (named (base ++ "(" ++ rank) folder g → done_key f = done_key g)
  ∧ (named (base ++ ")" ++ "." ++ rank) folder g → done_key f = done_key g).
Proof.
  intros Hopen Hclose [Hf Hff].
  apply not_elem_of_app in Hopen as [Ho1 Ho2].
  apply not_elem_of_app in Hclose as [Hc1 Hc2].
  assert (done_key f
          = get_s3_path (folder ++ "/function_completions/"
                         ++ base ++ "." ++ rank ++ ".done")) as ->.
  { unfold done_key. rewrite Hf, Hff. f_equal. rewrite !replace_app. simpl.
    rewrite (replace_absent "(" _ base), (replace_absent "(" _ rank) by done.
    rewrite ?replace_app. simpl.
    rewrite (replace_absent ")" _ base), (replace_absent ")" _ rank) by done.
    rewrite app_nil_r, <- (app_assoc base). reflexivity. }
  split_and!; intros [Hg Hgf]; unfold done_key; rewrite Hg, Hgf; f_equal;
    rewrite !replace_app; simpl;
    rewrite (replace_absent "(" _ base), (replace_absent "(" _ rank) by done;
    rewrite ?replace_app; simpl;
    rewrite (replace_absent ")" _ base), (replace_absent ")" _ rank) by done;
    rewrite <- ?(app_assoc base); reflexivity.
Qed.

Lemma done_key_collisions_witness :
  done_key (tracker_of "test_ranked(1)" "run1")
  = done_key (tracker_of "test_ranked.1" "run1").
Proof.
  destruct (done_key_collisions (tracker_of "test_ranked(1)" "run1")
              (tracker_of "test_ranked.1" "run1") "test_ranked" "1" "run1")
    as (Hdotted & _);
    [compute_done | compute_done | split; reflexivity |].
  apply Hdotted. split; reflexivity.
Defined.

(** ** A verdict overwrites what came before *)

(** X19: a [LOG_UPDATED] that has a verdict, a failure line in the log or a
    marker object in the store, overwrites whatever a LOG_CREATED or an
    override has set just before: the tracker ends in the same state as if
    only the [LOG_UPDATED] had been delivered. *)
Theorem verdict_overwrites (re_sub_empty : str → str → option str)
    (a : action) (logs : str) (head : str → str → head_response) (σ : State) :
  blind a = true →
  is_Some (search failed_regex logs)
  ∨ head (_bucket_name (s3_client (self σ))) (done_key (self σ)) = HeadReturns →
  run re_sub_empty [a; Deliver LOG_UPDATED logs head] σ
  = run re_sub_empty [Deliver LOG_UPDATED logs head] σ.
Proof.
  intros Ha Hverdict. cbn [run fold_left].
  assert (∃ st τ, step re_sub_empty a σ = forced st τ
                  ∧ observe logs head τ = observe logs head σ)
    as (st & τ & -> & Hτ).
  { destruct a as [[] logs' head'|st]; try done.
    - by exists RUNNING, (observe logs' head' σ).
    - by exists st, σ. }
  cbn [step _on_log_event].
  assert (observe logs head (forced st τ) = forced st (observe logs head σ))
    as -> by (by rewrite <- Hτ).
  rewrite !handle_log_updated_run.
  change (logs_content (_logger (self (forced st (observe logs head σ)))))
    with logs.
  change (logs_content (_logger (self (observe logs head σ)))) with logs.
  destruct (bool_decide (is_Some (search failed_regex logs))) eqn:Hfail; [done|].
  destruct Hverdict as [Hsome | Hhead].
  { apply bool_decide_eq_false in Hfail. done. }
  unfold object_exists.
  change (head_object (s3_client (self (forced st (observe logs head σ)))))
    with head.
  change (head_object (s3_client (self (observe logs head σ)))) with head.
  change (_bucket_name (s3_client (self (forced st (observe logs head σ)))))
    with (_bucket_name (s3_client (self σ))).
  change (_bucket_name (s3_client (self (observe logs head σ))))
    with (_bucket_name (s3_client (self σ))).
  change (done_key (self (forced st (observe logs head σ))))
    with (done_key (self σ)).
  change (done_key (self (observe logs head σ))) with (done_key (self σ)).
  by rewrite Hhead.
Qed.

Lemma verdict_overwrites_witness :
  run fragment_sub
    [Override SKIPPED;
     Deliver LOG_UPDATED (lines ["[0.1] [INFO] start"]) (head_object marker_store)]
    (fresh_tracker "f" "wf" "run1" no_store ∅)
  = run fragment_sub
      [Deliver LOG_UPDATED (lines ["[0.1] [INFO] start"])
         (head_object marker_store)]
      (fresh_tracker "f" "wf" "run1" no_store ∅).
Proof.
  apply (verdict_overwrites fragment_sub (Override SKIPPED)).
  - reflexivity.
  - right. reflexivity.
Defined.
